(** * Arethusa: a chained Feistel block cipher (cbc.c)

    A shallow embedding of [cbc.c] and the properties of its block
    transform, of its chaining over a byte stream and of its command
    line front end.

    Modelling conventions.
    - A C [char] is a [Byte.byte]; the operator [^] on two chars, stored
      back into a char, is the bitwise exclusive or of their eight bits.
    - The three scratch blocks [lbp], [bp], [obp] carved out of [buf] do
      not overlap; each is a list of [BLOCK_SIZE] bytes, and the pointer
      rotation [t = lbp; lbp = bp; bp = t] swaps the two lists.
    - The key pointer [kp] is the key (a list of bytes) together with a
      cursor of type [Z], since [decryptBlock] moves it backwards.
    - Standard input is the list of bytes not yet read, and [read]
      delivers [min count remaining] bytes (a regular file or a pipe that
      is drained block by block); reads of standard input do not fail.
    - [write] is driven by a plan held in the world: one entry per
      upcoming call says how many bytes the device accepts, or that the
      call fails with -1.
    - The byte counter [long n] is an unbounded integer: no stream of
      2^63 bytes is considered.
    - The loops over the input run on an iteration budget one larger than
      the number of unread bytes; [encryptStream_total] and
      [decryptStream_total] show that it is never exhausted. *)

From Stdlib Require Import Strings.String Strings.Ascii Init.Byte Strings.Byte.
From Stdlib Require Import ZArith Lia Bool Arith Morphisms List.
From AAC_tactics Require Import AAC.
Import ListNotations.

(* ===================================================================== *)
(** ** Bytes and exclusive or *)
(* ===================================================================== *)

Definition bits8 : Type :=
  (bool * (bool * (bool * (bool * (bool * (bool * (bool * bool)))))))%type.

Definition bits_xor (a b : bits8) : bits8 :=
  let '(a0, (a1, (a2, (a3, (a4, (a5, (a6, a7))))))) := a in
  let '(b0, (b1, (b2, (b3, (b4, (b5, (b6, b7))))))) := b in
  (xorb a0 b0, (xorb a1 b1, (xorb a2 b2, (xorb a3 b3,
  (xorb a4 b4, (xorb a5 b5, (xorb a6 b6, xorb a7 b7))))))).

(** The C expression [a ^ b] on two chars, truncated to a char. *)
Definition byte_xor (a b : byte) : byte :=
  Byte.of_bits (bits_xor (Byte.to_bits a) (Byte.to_bits b)).

(** The byte with numeric value [n] (taken modulo 256). *)
Definition byte_of_nat (n : nat) : byte :=
  match Byte.of_nat (n mod 256) with
  | Some b => b
  | None => x00
  end.

(** The 256 bytes, and the test that [byte_xor] is the exclusive or of the
    numeric values. *)
Definition all_bytes : list byte := map byte_of_nat (seq 0 256).

Definition xor_agrees (a b : byte) : bool :=
  N.eqb (Byte.to_N (byte_xor a b)) (N.lxor (Byte.to_N a) (Byte.to_N b)).

(* ===================================================================== *)
(** ** Symbolic constants *)
(* ===================================================================== *)

Definition BLOCK_SIZE : nat := 8.
Definition ROUNDS : nat := 16.
Definition STDIN : nat := 0.
Definition STDOUT : nat := 1.

(** [(BLOCK_SIZE / 2) * ROUNDS], the key length main insists on. *)
Definition KEY_LENGTH : nat := (BLOCK_SIZE / 2) * ROUNDS.

(* ===================================================================== *)
(** ** Buffers: indexed load and store *)
(* ===================================================================== *)

(** [*(p + i)]. *)
Definition load (p : list byte) (i : nat) : byte := nth i p x00.

(** [*(p + i) = v]; the code never stores outside its blocks, and the
    model leaves the list unchanged if it did. *)
Fixpoint store (p : list byte) (i : nat) (v : byte) : list byte :=
  match p, i with
  | [], _ => []
  | _ :: p', O => v :: p'
  | x :: p', S i' => x :: store p' i' v
  end.

(** [*kp] for a key pointer that stands [c] bytes into the key. *)
Definition key_at (key : list byte) (c : Z) : byte :=
  load key (Z.to_nat c).

(* ===================================================================== *)
(** ** The round function and the block transform *)
(* ===================================================================== *)

(** [int f (char r, char k) { return k; }] *)
Definition f (r k : byte) : byte := k.

(** The body of [for (i = 0; i < k; i++)] in [encryptBlock], run for the
    [todo] remaining values of [i]; yields the block and the advanced key
    cursor. *)
Fixpoint encrypt_for (todo i : nat) (bp key : list byte) (kc : Z)
  : list byte * Z :=
  match todo with
  | O => (bp, kc)
  | S todo' =>
      let k := BLOCK_SIZE / 2 in
      let t := load bp (k + i) in
      let bp := store bp (k + i)
                  (byte_xor (load bp i) (f (load bp (k + i)) (key_at key kc))) in
      let bp := store bp i t in
      encrypt_for todo' (S i) bp key (kc + 1)
  end.

(** [while (r--)] of [encryptBlock]. *)
Fixpoint encrypt_rounds (r : nat) (bp key : list byte) (kc : Z) : list byte :=
  match r with
  | O => bp
  | S r' =>
      let '(bp, kc) := encrypt_for (BLOCK_SIZE / 2) 0 bp key kc in
      encrypt_rounds r' bp key kc
  end.

Definition encryptBlock (bp key : list byte) : list byte :=
  encrypt_rounds ROUNDS bp key 0.

(** The body of the [for] loop of [decryptBlock]. *)
Fixpoint decrypt_for (todo i : nat) (bp key : list byte) (kc : Z)
  : list byte * Z :=
  match todo with
  | O => (bp, kc)
  | S todo' =>
      let k := BLOCK_SIZE / 2 in
      let t := load bp i in
      let bp := store bp i
                  (byte_xor (load bp (k + i)) (f (load bp i) (key_at key kc))) in
      let bp := store bp (k + i) t in
      decrypt_for todo' (S i) bp key (kc + 1)
  end.

(** [while (r--)] of [decryptBlock], with [kp -= 2 * k] after each round. *)
Fixpoint decrypt_rounds (r : nat) (bp key : list byte) (kc : Z) : list byte :=
  match r with
  | O => bp
  | S r' =>
      let '(bp, kc) := decrypt_for (BLOCK_SIZE / 2) 0 bp key kc in
      decrypt_rounds r' bp key (kc - 2 * Z.of_nat (BLOCK_SIZE / 2))
  end.

Definition decryptBlock (bp key : list byte) : list byte :=
  let r := ROUNDS in
  let k := BLOCK_SIZE / 2 in
  decrypt_rounds r bp key (Z.of_nat ((r - 1) * k)).

(* ===================================================================== *)
(** ** The world the process runs in *)
(* ===================================================================== *)

Inductive Fd : Type := FdStdin | FdStdout | FdRandom.

Inductive Syscall : Type :=
| SysOpenRandom
| SysRead (fd : Fd) (count : nat)
| SysWrite (fd : Fd) (count : nat).

(** What [main] and the stream routines print on the error stream. *)
Inductive Msg : Type :=
| DebugEncrypting
| DebugInitializedIV
| DebugWroteBytes
| DebugWroteLastBlock
| DebugFlags (is_decrypting : bool) (kp : list byte)
| ErrorKeyLength
| ErrorProcedureFailure
| BytesProcessed (n : Z).

Record World : Type := mkWorld {
  stdin : list byte;              (* bytes of standard input not yet read *)
  stdout : list byte;             (* bytes delivered to standard output *)
  stderr : list Msg;              (* messages on the error stream *)
  urandom : option (list byte);   (* None: /dev/urandom cannot be opened;
                                     Some l: the bytes it will supply *)
  wplan : list (option nat);      (* per upcoming write: None fails with -1,
                                     Some m accepts at most m bytes; an
                                     exhausted plan accepts everything *)
  stack : nat -> byte;            (* contents of the uninitialised [buf] *)
  calls : list Syscall            (* system calls made so far *)
}.

Definition log (c : Syscall) (w : World) : World :=
  mkWorld (stdin w) (stdout w) (stderr w) (urandom w) (wplan w) (stack w)
          (calls w ++ [c]).

(** [fprintf(stderr, ...)]. *)
Definition eprint (m : Msg) (w : World) : World :=
  mkWorld (stdin w) (stdout w) (stderr w ++ [m]) (urandom w) (wplan w)
          (stack w) (calls w).

(** [fprintf(stdout, ...)]. *)
Definition print (s : list byte) (w : World) : World :=
  mkWorld (stdin w) (stdout w ++ s) (stderr w) (urandom w) (wplan w)
          (stack w) (calls w).

(** [open(PATH_RANDOM, O_RDONLY, 0)]: [true] when a descriptor is returned,
    [false] for -1. *)
Definition sys_open_random (w : World) : bool * World :=
  (match urandom w with Some _ => true | None => false end,
   log SysOpenRandom w).

(** [read(fd, buf, count)]: the bytes delivered; the return value of the
    call is their number. *)
Definition sys_read (fd : Fd) (count : nat) (w : World) : list byte * World :=
  match fd with
  | FdStdin =>
      (firstn count (stdin w),
       log (SysRead fd count)
         (mkWorld (skipn count (stdin w)) (stdout w) (stderr w) (urandom w)
                  (wplan w) (stack w) (calls w)))
  | FdRandom =>
      match urandom w with
      | Some l =>
          (firstn count l,
           log (SysRead fd count)
             (mkWorld (stdin w) (stdout w) (stderr w) (Some (skipn count l))
                      (wplan w) (stack w) (calls w)))
      | None => ([], log (SysRead fd count) w)
      end
  | FdStdout => ([], log (SysRead fd count) w)
  end.

(** A read of [data] into the buffer [p] overwrites its first bytes only. *)
Definition read_into (data p : list byte) : list byte :=
  data ++ skipn (length data) p.

(** [write(STDOUT, p, count)]: the return value and the new world. *)
Definition sys_write (p : list byte) (count : nat) (w : World) : Z * World :=
  match wplan w with
  | [] =>
      (Z.of_nat count,
       log (SysWrite FdStdout count)
         (mkWorld (stdin w) (stdout w ++ firstn count p) (stderr w)
                  (urandom w) [] (stack w) (calls w)))
  | None :: plan =>
      ((-1)%Z,
       log (SysWrite FdStdout count)
         (mkWorld (stdin w) (stdout w) (stderr w) (urandom w) plan (stack w)
                  (calls w)))
  | Some m :: plan =>
      (Z.of_nat (Nat.min m count),
       log (SysWrite FdStdout count)
         (mkWorld (stdin w) (stdout w ++ firstn (Nat.min m count) p)
                  (stderr w) (urandom w) plan (stack w) (calls w)))
  end.

(** How control leaves a loop of a stream routine. *)
Inductive flow (A : Type) : Type :=
| Falls (a : A) (w : World)     (* the loop condition failed *)
| Returns (r : Z) (w : World)   (* a [return] was executed in the body *)
| OutOfFuel.                    (* the iteration budget of the model ran out *)

Arguments Falls {A} a w.
Arguments Returns {A} r w.
Arguments OutOfFuel {A}.

(* ===================================================================== *)
(** ** Buffer helpers of the stream routines *)
(* ===================================================================== *)

(** [for (i = 0; i < todo; bp[i] ^= lbp[i], i++);] from index [i] on. *)
Fixpoint xor_for (todo i : nat) (bp lbp : list byte) : list byte :=
  match todo with
  | O => bp
  | S todo' =>
      xor_for todo' (S i) (store bp i (byte_xor (load bp i) (load lbp i))) lbp
  end.

(** [memset(p + off, v, count)]. *)
Fixpoint memset (p : list byte) (off : nat) (v : byte) (count : nat)
  : list byte :=
  match count with
  | O => p
  | S count' => memset (store p off v) (S off) v count'
  end.

(** [memcpy(dst, src, count)]. *)
Definition memcpy (dst src : list byte) (count : nat) : list byte :=
  firstn count src ++ skipn count dst.

(** The uninitialised array [char buf[size]]. *)
Definition buf_of (w : World) (size : nat) : list byte :=
  map (stack w) (seq 0 size).

(** The block that starts [off] bytes into [buf]. *)
Definition block_at (buf : list byte) (off : nat) : list byte :=
  firstn BLOCK_SIZE (skipn off buf).

(* ===================================================================== *)
(** ** encryptStream *)
(* ===================================================================== *)

(** State at the exit of the block loops: [lbp], [bp], [bytes], [n]. *)
Definition loop_state : Type := (list byte * list byte * nat * Z)%type.

(** [while ((bytes = read(STDIN, bp, BLOCK_SIZE)) == BLOCK_SIZE) { ... }]
    of [encryptStream]. *)
Fixpoint encrypt_loop (fuel : nat) (key lbp bp : list byte) (n : Z)
  (w : World) : flow loop_state :=
  match fuel with
  | O => OutOfFuel
  | S fuel' =>
      let '(data, w) := sys_read FdStdin BLOCK_SIZE w in
      let bytes := length data in
      let bp := read_into data bp in
      if Nat.eqb bytes BLOCK_SIZE then
        let bp := xor_for BLOCK_SIZE 0 bp lbp in
        let bp := encryptBlock bp key in
        let '(r, w) := sys_write bp BLOCK_SIZE w in
        if negb (Z.eqb r (Z.of_nat BLOCK_SIZE)) then Returns (-1) w
        else
          (* t = lbp; lbp = bp; bp = t; n += BLOCK_SIZE; *)
          encrypt_loop fuel' key bp lbp (n + Z.of_nat BLOCK_SIZE) w
      else Falls (lbp, bp, bytes, n) w
  end.

(** The statements of [encryptStream] after the block loop. *)
Definition encrypt_tail (key : list byte) (st : loop_state) (w : World)
  : Z * World :=
  let '(lbp, bp, bytes, n) := st in
  let w := eprint DebugWroteBytes w in
  if negb (Nat.eqb bytes 0) then
    let bp := xor_for bytes 0 bp lbp in
    let bp := memset bp bytes x00 (BLOCK_SIZE - bytes) in
    let bp := encryptBlock bp key in
    let '(r, w) := sys_write bp bytes w in
    if negb (Z.eqb r (Z.of_nat bytes)) then ((-1)%Z, w)
    else ((n + Z.of_nat bytes)%Z, eprint DebugWroteLastBlock w)
  else (n, eprint DebugWroteLastBlock w).

(** From the exit of the block loop to the result of [encryptStream]. *)
Definition encrypt_finish (key : list byte) (fl : flow loop_state)
  : option (Z * World) :=
  match fl with
  | Returns r w => Some (r, w)
  | Falls st w => Some (encrypt_tail key st w)
  | OutOfFuel => None
  end.

(** [static long encryptStream (const char *kp)]; [None] only if the
    iteration budget were too small, which [encryptStream_total] excludes. *)
Definition encryptStream (key : list byte) (w : World) : option (Z * World) :=
  let fuel := S (length (stdin w)) in
  let n := 0%Z in
  let buf := buf_of w (2 * BLOCK_SIZE) in
  let lbp := block_at buf 0 in
  let bp := block_at buf BLOCK_SIZE in
  let w := eprint DebugEncrypting w in
  let '(opened, w) := sys_open_random w in
  if negb opened then Some ((-1)%Z, w)
  else
    let '(data, w) := sys_read FdRandom BLOCK_SIZE w in
    let lbp := read_into data lbp in
    if negb (Nat.eqb (length data) BLOCK_SIZE) then Some ((-1)%Z, w)
    else
      let lbp := encryptBlock lbp key in
      let '(_, w) := sys_write lbp BLOCK_SIZE w in
      let w := eprint DebugInitializedIV w in
      encrypt_finish key (encrypt_loop fuel key lbp bp n w).

(* ===================================================================== *)
(** ** decryptStream *)
(* ===================================================================== *)

(** State at the exit of the block loop of [decryptStream]:
    [lbp], [bp], [obp], [bytes], [n]. *)
Definition dloop_state : Type :=
  (list byte * list byte * list byte * nat * Z)%type.

Fixpoint decrypt_loop (fuel : nat) (key lbp bp obp : list byte) (n : Z)
  (w : World) : flow dloop_state :=
  match fuel with
  | O => OutOfFuel
  | S fuel' =>
      let '(data, w) := sys_read FdStdin BLOCK_SIZE w in
      let bytes := length data in
      let bp := read_into data bp in
      if Nat.eqb bytes BLOCK_SIZE then
        let obp := memcpy obp bp BLOCK_SIZE in
        let obp := xor_for BLOCK_SIZE 0 obp lbp in
        let obp := decryptBlock obp key in
        let '(r, w) := sys_write obp BLOCK_SIZE w in
        if Z.eqb r (-1) then Returns (-1) w
        else
          (* t = lbp; lbp = bp; bp = t; n += BLOCK_SIZE; *)
          decrypt_loop fuel' key bp lbp obp (n + Z.of_nat BLOCK_SIZE) w
      else Falls (lbp, bp, obp, bytes, n) w
  end.

(** The statements of [decryptStream] after the block loop. *)
Definition decrypt_tail (key : list byte) (st : dloop_state) (w : World)
  : Z * World :=
  let '(lbp, bp, obp, bytes, n) := st in
  if negb (Nat.eqb bytes 0) then
    let bp := xor_for bytes 0 bp lbp in
    let bp := memset bp bytes x00 (BLOCK_SIZE - bytes) in
    let bp := decryptBlock bp key in
    let '(r, w) := sys_write bp bytes w in
    if negb (Z.eqb r (Z.of_nat bytes)) then ((-1)%Z, w)
    else ((n + Z.of_nat bytes)%Z, w)
  else (n, w).

(** From the exit of the block loop to the result of [decryptStream]. *)
Definition decrypt_finish (key : list byte) (fl : flow dloop_state)
  : option (Z * World) :=
  match fl with
  | Returns r w => Some (r, w)
  | Falls st w => Some (decrypt_tail key st w)
  | OutOfFuel => None
  end.

(** [static long decryptStream (const char *kp)]. *)
Definition decryptStream (key : list byte) (w : World) : option (Z * World) :=
  let fuel := S (length (stdin w)) in
  let n := 0%Z in
  let buf := buf_of w (3 * BLOCK_SIZE) in
  let lbp := block_at buf 0 in
  let bp := block_at buf BLOCK_SIZE in
  let obp := block_at buf (2 * BLOCK_SIZE) in
  let '(data, w) := sys_read FdStdin BLOCK_SIZE w in
  let lbp := read_into data lbp in
  if negb (Nat.eqb (length data) BLOCK_SIZE) then Some ((-1)%Z, w)
  else
    decrypt_finish key (decrypt_loop fuel key lbp bp obp n w).

(* ===================================================================== *)
(** ** main *)
(* ===================================================================== *)

(** A C string without its terminating NUL. *)
Definition cstring : Type := list byte.

(** [*s] for a C string: the terminator when the string is empty. *)
Definition deref (s : cstring) : byte := hd x00 s.

Definition newline : string := String "010"%char EmptyString.
Definition tab : string := String "009"%char EmptyString.

Definition PRGM_USAGE : string :=
  ("[-d] <key>" ++ newline ++
   "A chained block feistel cipher." ++ newline ++
   tab ++ "-d: (OPTIONAL) If set, decrypts input." ++ newline ++
   tab ++ "<key>: A 64 byte/character encryption key." ++ newline)%string.

(** [while (--argc && *(argp = *++argv) == '-') { char f = *++argp; ... }]
    where [argv] is the list from the current argument pointer on. *)
Fixpoint parse_flags (argc : nat) (argv : list cstring) (argp : cstring)
  (is_decrypting : bool) {struct argv} : cstring * bool :=
  match Nat.pred argc, argv with
  | S _ as argc', _ :: ((a :: _) as argv') =>
      let argp := a in
      if Byte.eqb (deref argp) "-"%byte then
        let argp := tl argp in
        let f := deref argp in
        parse_flags argc' argv' argp
          (if Byte.eqb f "d"%byte then true else is_decrypting)
      else (argp, is_decrypting)
  | _, _ => (argp, is_decrypting)
  end.

(** [int main (int argc, const char *argv[])] with [argc = length argv]. *)
Definition main (argv : list cstring) (w : World) : option (Z * World) :=
  let argc := length argv in
  if (argc <? 2) || (3 <? argc) then
    Some (0%Z,
          print (hd [] argv ++ list_byte_of_string " "
                 ++ list_byte_of_string PRGM_USAGE) w)
  else
    let '(argp, is_decrypting) := parse_flags argc argv [] false in
    let kp := argp in
    if negb (Nat.eqb (length kp) KEY_LENGTH) then
      Some (0%Z, eprint ErrorKeyLength w)
    else
      let w := eprint (DebugFlags is_decrypting kp) w in
      match (if is_decrypting then decryptStream kp w
             else encryptStream kp w) with
      | Some (n, w) =>
          if Z.eqb n (-1) then Some (0%Z, eprint ErrorProcedureFailure w)
          else Some (0%Z, eprint (BytesProcessed n) w)
      | None => None
      end.

(* ===================================================================== *)
(** ** The block transform as the specification words it *)
(* ===================================================================== *)

(** Byte-wise exclusive or of two byte sequences. *)
Definition xor_block (a b : list byte) : list byte :=
  map (fun p => byte_xor (fst p) (snd p)) (combine a b).

Module Spec.

(** The round function in the specification's words: the key byte, whatever
    the data byte. *)
Definition RoundFunction (r k : byte) : byte := k.

(** One half-index of one round: [t = right[i]];
    [right[i] = left[i] XOR RoundFunction(right[i], key[r*k + i])];
    [left[i] = t]. *)
Definition half_step (key : list byte) (r : nat)
  (lr : list byte * list byte) (i : nat) : list byte * list byte :=
  let '(lft, rgt) := lr in
  let k := 4 in
  let t := nth i rgt x00 in
  let rgt :=
    store rgt i
      (byte_xor (nth i lft x00)
         (RoundFunction (nth i rgt x00) (nth (r * k + i) key x00))) in
  let lft := store lft i t in
  (lft, rgt).

(** Half-indices 0..3 in order. *)
Definition round (key : list byte) (lr : list byte * list byte) (r : nat)
  : list byte * list byte :=
  fold_left (half_step key r) (seq 0 4) lr.

(** Rounds 0..15 in order, on the halves of the block. *)
Definition Encrypt (block key : list byte) : list byte :=
  let '(lft, rgt) :=
    fold_left (round key) (seq 0 16) (firstn 4 block, skipn 4 block) in
  lft ++ rgt.

(** The four key bytes round [r] consumes. *)
Definition key_slice (key : list byte) (r : nat) : list byte :=
  firstn 4 (skipn (4 * r) key).

(** The exclusive or of the key slices of the given rounds. *)
Definition xor_slices (key : list byte) (rounds : list nat) : list byte :=
  fold_left (fun acc r => xor_block acc (key_slice key r)) rounds
    (repeat x00 4).

Definition even_rounds : list nat := map (fun j => 2 * j) (seq 0 8).
Definition odd_rounds : list nat := map (fun j => 2 * j + 1) (seq 0 8).

(** The mask M(K): left half from the even rounds, right half from the odd
    rounds. *)
Definition M (key : list byte) : list byte :=
  xor_slices key even_rounds ++ xor_slices key odd_rounds.

End Spec.

(* ===================================================================== *)
(** ** Worlds reached by the system calls *)
(* ===================================================================== *)

(** After a read of standard input that leaves [rest] unread. *)
Definition after_read (rest : list byte) (w : World) : World :=
  log (SysRead FdStdin BLOCK_SIZE)
    (mkWorld rest (stdout w) (stderr w) (urandom w) (wplan w) (stack w)
       (calls w)).

(** After a complete write of [data] under an exhausted write plan. *)
Definition after_write (data : list byte) (w : World) : World :=
  log (SysWrite FdStdout (length data))
    (mkWorld (stdin w) (stdout w ++ data) (stderr w) (urandom w) []
       (stack w) (calls w)).

(** The byte counts of the writes in a trace of system calls, in order. *)
Fixpoint write_sizes (cs : list Syscall) : list nat :=
  match cs with
  | [] => []
  | SysWrite _ count :: cs' => count :: write_sizes cs'
  | _ :: cs' => write_sizes cs'
  end.

(** The sizes of the writes that frame [len] bytes of input: full blocks,
    then the partial segment if there is one. *)
Definition frame_sizes (len : nat) : list nat :=
  repeat BLOCK_SIZE (len / 8)
  ++ (if Nat.eqb (len mod 8) 0 then [] else [len mod 8]).

(* ===================================================================== *)
(** ** What the specification says of the final chunk of a decryption *)
(* ===================================================================== *)

Module SpecTail.

(** The final partial chunk in the specification's words: zero-pad the chunk
    to [BLOCK_SIZE], xor the padded chunk with the previous block, apply no
    block transform, emit the original number of bytes. *)
Definition xor_only (chunk prev : list byte) : list byte :=
  firstn (length chunk)
    (xor_block (chunk ++ repeat x00 (BLOCK_SIZE - length chunk)) prev).

End SpecTail.

(* ===================================================================== *)
(** ** Reading the result of a stream routine *)
(* ===================================================================== *)

(** The bytes on standard output when the routine has returned. *)
Definition output_of (r : option (Z * World)) : list byte :=
  match r with
  | Some (_, w) => stdout w
  | None => []
  end.


(** The value the routine returned. *)
Definition status_of (r : option (Z * World)) : option Z :=
  option_map fst r.

(* ===================================================================== *)
(** ** Test vectors *)
(* ===================================================================== *)

(** The block [0,1,...,7] and the key [0,1,...,63]. *)
Definition block_0_7 : list byte := map byte_of_nat (seq 0 8).
Definition key_0_63 : list byte := map byte_of_nat (seq 0 64).

(** A 64-character pass phrase; its mask has no zero byte. *)
Definition key_phrase : list byte :=
  list_byte_of_string
    "correct horse battery staple, a key of exactly sixty-four bytes!".

(** [key_phrase] with its first two round slices moved to the end: another
    key, with the same mask. *)
Definition key_rotated : list byte :=
  skipn 8 key_phrase ++ firstn 8 key_phrase.

Definition digits10 : list byte := list_byte_of_string "0123456789".
Definition digits8 : list byte := list_byte_of_string "01234567".
Definition letters8 : list byte := list_byte_of_string "ABCDEFGH".
Definition letters16 : list byte := list_byte_of_string "ABCDEFGHIJKLMNOP".
Definition letters24 : list byte :=
  list_byte_of_string "ABCDEFGHIJKLMNOPQRSTUVWX".

(** The flag argument "-d". *)
Definition dash_d : cstring := list_byte_of_string "-d".

(** A fresh process: nothing written yet, no system call made yet. *)
Definition world_of (input : list byte) (rnd : option (list byte))
  (plan : list (option nat)) : World :=
  mkWorld input [] [] rnd plan (fun _ => xff) [].

(* ===================================================================== *)
(** ** Algebra of [byte_xor] *)
(* ===================================================================== *)

Lemma bits_xor_assoc (a b c : bits8) :
  bits_xor a (bits_xor b c) = bits_xor (bits_xor a b) c.
Proof.
  destruct a as (a0 & a1 & a2 & a3 & a4 & a5 & a6 & a7).
  destruct b as (b0 & b1 & b2 & b3 & b4 & b5 & b6 & b7).
  destruct c as (c0 & c1 & c2 & c3 & c4 & c5 & c6 & c7).
  cbn. now rewrite !xorb_assoc.
Qed.

Lemma bits_xor_comm (a b : bits8) : bits_xor a b = bits_xor b a.
Proof.
  destruct a as (a0 & a1 & a2 & a3 & a4 & a5 & a6 & a7).
  destruct b as (b0 & b1 & b2 & b3 & b4 & b5 & b6 & b7).
  cbn.
  now rewrite (xorb_comm a0), (xorb_comm a1), (xorb_comm a2), (xorb_comm a3),
    (xorb_comm a4), (xorb_comm a5), (xorb_comm a6), (xorb_comm a7).
Qed.

Lemma bits_xor_nilpotent (a : bits8) : bits_xor a a = Byte.to_bits x00.
Proof.
  destruct a as (a0 & a1 & a2 & a3 & a4 & a5 & a6 & a7).
  cbn. now rewrite !xorb_nilpotent.
Qed.

Lemma bits_xor_zero_l (a : bits8) : bits_xor (Byte.to_bits x00) a = a.
Proof.
  destruct a as (a0 & a1 & a2 & a3 & a4 & a5 & a6 & a7).
  reflexivity.
Qed.

Lemma all_bytes_complete (b : byte) : In b all_bytes.
Proof.
  assert (H : existsb (Byte.eqb b) all_bytes = true)
    by (destruct b; vm_compute; reflexivity).
  apply existsb_exists in H. destruct H as (x & Hx & He).
  apply Byte.byte_dec_bl in He. now subst.
Qed.

(** [byte_xor] is the operator [^] on the values of the two chars. *)
Lemma byte_xor_numeric (a b : byte) :
  Byte.to_N (byte_xor a b) = N.lxor (Byte.to_N a) (Byte.to_N b).
Proof.
  assert (H : forallb (fun a => forallb (xor_agrees a) all_bytes) all_bytes
              = true) by (vm_compute; reflexivity).
  rewrite forallb_forall in H. specialize (H a (all_bytes_complete a)).
  rewrite forallb_forall in H. specialize (H b (all_bytes_complete b)).
  now apply N.eqb_eq.
Qed.

Lemma byte_xor_assoc (a b c : byte) :
  byte_xor a (byte_xor b c) = byte_xor (byte_xor a b) c.
Proof.
  unfold byte_xor. now rewrite !Byte.to_bits_of_bits, bits_xor_assoc.
Qed.

Lemma byte_xor_comm (a b : byte) : byte_xor a b = byte_xor b a.
Proof. unfold byte_xor. now rewrite bits_xor_comm. Qed.

Lemma byte_xor_nilpotent (a : byte) : byte_xor a a = x00.
Proof.
  unfold byte_xor. rewrite bits_xor_nilpotent. apply Byte.of_bits_to_bits.
Qed.

Lemma byte_xor_zero_l (a : byte) : byte_xor x00 a = a.
Proof.
  unfold byte_xor. rewrite bits_xor_zero_l. apply Byte.of_bits_to_bits.
Qed.

Lemma byte_xor_zero_r (a : byte) : byte_xor a x00 = a.
Proof. rewrite byte_xor_comm. apply byte_xor_zero_l. Qed.

(** Xoring the same byte in twice cancels. *)
Lemma byte_xor_cancel_r (a b : byte) : byte_xor (byte_xor a b) b = a.
Proof.
  now rewrite <- byte_xor_assoc, byte_xor_nilpotent, byte_xor_zero_r.
Qed.

#[export] Instance byte_xor_Associative : Associative eq byte_xor.
Proof. exact byte_xor_assoc. Qed.

#[export] Instance byte_xor_Commutative : Commutative eq byte_xor.
Proof. exact byte_xor_comm. Qed.

#[export] Instance byte_xor_Unit : Unit eq byte_xor x00.
Proof. split; [exact byte_xor_zero_l | exact byte_xor_zero_r]. Qed.

#[export] Instance byte_xor_Proper : Proper (eq ==> eq ==> eq) byte_xor.
Proof. repeat intro; subst; reflexivity. Qed.

(* ===================================================================== *)
(** ** Lists of known length *)
(* ===================================================================== *)

(** Replace a list whose length is a known numeral by its elements. *)
Ltac explode l H :=
  repeat (let x := fresh "x" in
          destruct l as [|x l]; [discriminate H|];
          simpl in H; apply Nat.succ_inj in H);
  destruct l; [clear H | discriminate H].

(* ===================================================================== *)
(** ** The block transform is an exclusive or with a key mask *)
(* ===================================================================== *)

Lemma encryptBlock_mask (b key : list byte) :
  length b = 8 -> length key = 64 ->
  encryptBlock b key = xor_block b (Spec.M key).
Proof.
  intros Hb Hk. explode b Hb. explode key Hk.
  cbv -[byte_xor].
  repeat (f_equal; try aac_reflexivity).
Qed.

Lemma decryptBlock_mask (b key : list byte) :
  length b = 8 -> length key = 64 ->
  decryptBlock b key = xor_block b (Spec.M key).
Proof.
  intros Hb Hk. explode b Hb. explode key Hk.
  cbv -[byte_xor].
  repeat (f_equal; try aac_reflexivity).
Qed.

(* ===================================================================== *)
(** ** Byte-wise exclusive or of sequences *)
(* ===================================================================== *)

Lemma xor_block_nil_l (b : list byte) : xor_block [] b = [].
Proof. reflexivity. Qed.

Lemma xor_block_cons (x y : byte) (a b : list byte) :
  xor_block (x :: a) (y :: b) = byte_xor x y :: xor_block a b.
Proof. reflexivity. Qed.

Lemma xor_block_length (a b : list byte) :
  length (xor_block a b) = Nat.min (length a) (length b).
Proof. unfold xor_block. now rewrite length_map, length_combine. Qed.

Lemma xor_block_comm (a b : list byte) : xor_block a b = xor_block b a.
Proof.
  revert b. induction a as [|x a IH]; intros [|y b]; try reflexivity.
  rewrite !xor_block_cons, IH. f_equal. apply byte_xor_comm.
Qed.

Lemma xor_block_assoc (a b c : list byte) :
  xor_block a (xor_block b c) = xor_block (xor_block a b) c.
Proof.
  revert b c. induction a as [|x a IH]; intros [|y b] [|z c]; try reflexivity.
  rewrite !xor_block_cons, IH. f_equal. apply byte_xor_assoc.
Qed.

(** Xoring the same sequence in twice cancels, provided it is long enough. *)
Lemma xor_block_cancel (a b : list byte) :
  length a <= length b -> xor_block (xor_block a b) b = a.
Proof.
  revert b. induction a as [|x a IH]; intros [|y b] H; try reflexivity.
  - simpl in H. lia.
  - simpl in H. rewrite !xor_block_cons, IH by lia.
    f_equal. apply byte_xor_cancel_r.
Qed.

Lemma xor_block_swap (a b c : list byte) :
  xor_block (xor_block a b) c = xor_block (xor_block a c) b.
Proof.
  now rewrite <- !xor_block_assoc, (xor_block_comm b c).
Qed.

(** The padding of a block does not reach its first bytes. *)
Lemma firstn_xor_block_app (a z m : list byte) :
  firstn (length a) (xor_block (a ++ z) m) = xor_block a m.
Proof.
  revert m. induction a as [|x a IH]; intros [|y m]; try reflexivity.
  simpl app. rewrite !xor_block_cons. simpl. now rewrite IH.
Qed.

Lemma M_length (key : list byte) : length key = 64 -> length (Spec.M key) = 8.
Proof. intros Hk. explode key Hk. reflexivity. Qed.

Lemma encryptBlock_length (b key : list byte) :
  length b = 8 -> length key = 64 -> length (encryptBlock b key) = 8.
Proof.
  intros Hb Hk. rewrite encryptBlock_mask, xor_block_length, M_length by assumption.
  rewrite Hb. reflexivity.
Qed.

Lemma decryptBlock_length (b key : list byte) :
  length b = 8 -> length key = 64 -> length (decryptBlock b key) = 8.
Proof.
  intros Hb Hk. rewrite decryptBlock_mask, xor_block_length, M_length by assumption.
  rewrite Hb. reflexivity.
Qed.

(** Decrypting what [encryptBlock] produced gives the block back. *)
Lemma decrypt_encrypt_block (b key : list byte) :
  length b = 8 -> length key = 64 ->
  decryptBlock (encryptBlock b key) key = b.
Proof.
  intros Hb Hk.
  rewrite decryptBlock_mask by (auto using encryptBlock_length).
  rewrite encryptBlock_mask by assumption.
  apply xor_block_cancel. rewrite M_length by assumption. lia.
Qed.

(* ===================================================================== *)
(** ** The buffer helpers on blocks *)
(* ===================================================================== *)

Lemma xor_for_block (bp lbp : list byte) :
  length bp = 8 -> length lbp = 8 ->
  xor_for BLOCK_SIZE 0 bp lbp = xor_block bp lbp.
Proof. intros Hb Hl. explode bp Hb. explode lbp Hl. reflexivity. Qed.

(** The final chunk [c], read over the stale block [old], after the xor over
    its [length c] bytes and the [memset] of the rest. *)
Lemma tail_block (c old lbp : list byte) :
  length c < 8 -> length old = 8 -> length lbp = 8 ->
  memset (xor_for (length c) 0 (read_into c old) lbp) (length c) x00
    (BLOCK_SIZE - length c)
  = xor_block c lbp ++ repeat x00 (8 - length c).
Proof.
  intros Hc Ho Hl. explode old Ho. explode lbp Hl.
  do 8 (destruct c as [|? c]; [reflexivity|]).
  simpl in Hc. lia.
Qed.

Lemma read_into_block (p old : list byte) :
  length p = 8 -> length old = 8 -> read_into p old = p.
Proof.
  intros Hp Ho. unfold read_into. rewrite Hp, skipn_all2 by lia.
  apply app_nil_r.
Qed.

Lemma memcpy_block (dst src : list byte) :
  length src = 8 -> length dst = 8 -> memcpy dst src BLOCK_SIZE = src.
Proof.
  intros Hs Hd. unfold memcpy, BLOCK_SIZE.
  rewrite firstn_all2, skipn_all2 by lia. apply app_nil_r.
Qed.

(* ===================================================================== *)
(** ** Single system calls *)
(* ===================================================================== *)

Lemma firstn_prefix (n : nat) (p rest : list byte) :
  length p = n -> firstn n (p ++ rest) = p.
Proof.
  intros <-. rewrite firstn_app, firstn_all, Nat.sub_diag. apply app_nil_r.
Qed.

Lemma skipn_prefix (n : nat) (p rest : list byte) :
  length p = n -> skipn n (p ++ rest) = rest.
Proof.
  intros <-. now rewrite skipn_app, skipn_all, Nat.sub_diag.
Qed.

Lemma sys_read_block (w : World) (p rest : list byte) :
  stdin w = p ++ rest -> length p = 8 ->
  sys_read FdStdin BLOCK_SIZE w = (p, after_read rest w).
Proof.
  intros Hin Hp. unfold sys_read, after_read, BLOCK_SIZE. rewrite Hin.
  now rewrite firstn_prefix, skipn_prefix.
Qed.

Lemma sys_read_short (w : World) :
  length (stdin w) < 8 ->
  sys_read FdStdin BLOCK_SIZE w = (stdin w, after_read [] w).
Proof.
  intros H. unfold sys_read, after_read, BLOCK_SIZE.
  now rewrite firstn_all2, skipn_all2 by lia.
Qed.

Lemma sys_write_all (p : list byte) (w : World) :
  wplan w = [] ->
  sys_write p (length p) w = (Z.of_nat (length p), after_write p w).
Proof.
  intros H. unfold sys_write, after_write. rewrite H. now rewrite firstn_all.
Qed.

Lemma sys_write_prefix (p : list byte) (count : nat) (w : World) :
  wplan w = [] -> count <= length p ->
  sys_write p count w = (Z.of_nat count, after_write (firstn count p) w).
Proof.
  intros H Hc. unfold sys_write, after_write. rewrite H.
  now rewrite length_firstn, Nat.min_l by assumption.
Qed.

(* ===================================================================== *)
(** ** One iteration of the block loops *)
(* ===================================================================== *)

Lemma encrypt_loop_block (fuel : nat) (key lbp bp : list byte) (n : Z)
  (w : World) (p rest : list byte) :
  stdin w = p ++ rest -> length p = 8 -> length lbp = 8 -> length bp = 8 ->
  encrypt_loop (S fuel) key lbp bp n w =
    let ct := encryptBlock (xor_block p lbp) key in
    let '(r, w') := sys_write ct BLOCK_SIZE (after_read rest w) in
    if negb (Z.eqb r (Z.of_nat BLOCK_SIZE)) then Returns (-1) w'
    else encrypt_loop fuel key ct lbp (n + Z.of_nat BLOCK_SIZE) w'.
Proof.
  intros Hin Hp Hl Hb. cbn [encrypt_loop].
  rewrite (sys_read_block _ _ _ Hin Hp), read_into_block, Hp by assumption.
  cbn [Nat.eqb BLOCK_SIZE]. fold BLOCK_SIZE.
  now rewrite xor_for_block by assumption.
Qed.

Lemma encrypt_loop_short (fuel : nat) (key lbp bp : list byte) (n : Z)
  (w : World) :
  length (stdin w) < 8 ->
  encrypt_loop (S fuel) key lbp bp n w =
    Falls (lbp, read_into (stdin w) bp, length (stdin w), n) (after_read [] w).
Proof.
  intros H. cbn [encrypt_loop]. rewrite (sys_read_short _ H).
  destruct (Nat.eqb_spec (length (stdin w)) BLOCK_SIZE) as [E|E];
    [unfold BLOCK_SIZE in E; lia | reflexivity].
Qed.

Lemma decrypt_loop_block (fuel : nat) (key lbp bp obp : list byte) (n : Z)
  (w : World) (c rest : list byte) :
  stdin w = c ++ rest -> length c = 8 -> length key = 64 ->
  length lbp = 8 -> length bp = 8 -> length obp = 8 ->
  decrypt_loop (S fuel) key lbp bp obp n w =
    let out := xor_block (decryptBlock c key) lbp in
    let '(r, w') := sys_write out BLOCK_SIZE (after_read rest w) in
    if Z.eqb r (-1) then Returns (-1) w'
    else decrypt_loop fuel key c lbp out (n + Z.of_nat BLOCK_SIZE) w'.
Proof.
  intros Hin Hc Hk Hl Hb Ho. cbn [decrypt_loop].
  rewrite (sys_read_block _ _ _ Hin Hc), read_into_block, Hc by assumption.
  cbn [Nat.eqb BLOCK_SIZE]. fold BLOCK_SIZE.
  rewrite memcpy_block, xor_for_block by assumption.
  assert (Hx : length (xor_block c lbp) = 8)
    by (rewrite xor_block_length, Hc, Hl; reflexivity).
  rewrite decryptBlock_mask by assumption.
  rewrite (decryptBlock_mask _ _ Hc Hk).
  now rewrite (xor_block_swap c (Spec.M key) lbp).
Qed.

Lemma decrypt_loop_short (fuel : nat) (key lbp bp obp : list byte) (n : Z)
  (w : World) :
  length (stdin w) < 8 ->
  decrypt_loop (S fuel) key lbp bp obp n w =
    Falls (lbp, read_into (stdin w) bp, obp, length (stdin w), n)
      (after_read [] w).
Proof.
  intros H. cbn [decrypt_loop]. rewrite (sys_read_short _ H).
  destruct (Nat.eqb_spec (length (stdin w)) BLOCK_SIZE) as [E|E];
    [unfold BLOCK_SIZE in E; lia | reflexivity].
Qed.

Lemma sys_write_block (p : list byte) (w : World) :
  wplan w = [] -> length p = 8 ->
  sys_write p BLOCK_SIZE w = (Z.of_nat BLOCK_SIZE, after_write p w).
Proof.
  intros H Hp. unfold BLOCK_SIZE. rewrite <- Hp. now apply sys_write_all.
Qed.

(* ===================================================================== *)
(** ** The final partial chunk *)
(* ===================================================================== *)

(** The final chunk of [decryptStream] under any write plan: the chunk is
    xored with the chain block over its own length, padded with zeros, run
    through [decryptBlock], and its first [length c] bytes are written. *)
Lemma decrypt_tail_chunk (key lbp old obp c : list byte) (n : Z) (w : World) :
  1 <= length c < 8 -> length lbp = 8 -> length old = 8 ->
  decrypt_tail key (lbp, read_into c old, obp, length c, n) w =
    let out :=
      decryptBlock (xor_block c lbp ++ repeat x00 (8 - length c)) key in
    let '(r, w') := sys_write out (length c) w in
    if negb (Z.eqb r (Z.of_nat (length c))) then ((-1)%Z, w')
    else ((n + Z.of_nat (length c))%Z, w').
Proof.
  intros Hc Hl Ho. unfold decrypt_tail.
  destruct (Nat.eqb_spec (length c) 0) as [E|E]; [lia|]. cbn [negb].
  now rewrite tail_block by (assumption || lia).
Qed.

Lemma encrypt_tail_chunk (key lbp old c : list byte) (n : Z) (w : World) :
  1 <= length c < 8 -> length lbp = 8 -> length old = 8 ->
  encrypt_tail key (lbp, read_into c old, length c, n) w =
    let out :=
      encryptBlock (xor_block c lbp ++ repeat x00 (8 - length c)) key in
    let '(r, w') := sys_write out (length c) (eprint DebugWroteBytes w) in
    if negb (Z.eqb r (Z.of_nat (length c))) then ((-1)%Z, w')
    else ((n + Z.of_nat (length c))%Z, eprint DebugWroteLastBlock w').
Proof.
  intros Hc Hl Ho. unfold encrypt_tail.
  destruct (Nat.eqb_spec (length c) 0) as [E|E]; [lia|]. cbn [negb].
  now rewrite tail_block by (assumption || lia).
Qed.

(** What either block transform leaves of a padded final chunk. *)
Lemma padded_length (c lbp : list byte) :
  length c < 8 -> length lbp = 8 ->
  length (xor_block c lbp ++ repeat x00 (8 - length c)) = 8.
Proof.
  intros Hc Hl. rewrite length_app, xor_block_length, repeat_length, Hl. lia.
Qed.

Lemma firstn_masked_tail (key c lbp : list byte) :
  length key = 64 -> length c < 8 -> length lbp = 8 ->
  firstn (length c)
    (xor_block (xor_block c lbp ++ repeat x00 (8 - length c)) (Spec.M key))
  = xor_block (xor_block c lbp) (Spec.M key).
Proof.
  intros Hk Hc Hl.
  assert (E : length c = length (xor_block c lbp))
    by (rewrite xor_block_length, Hl; lia).
  rewrite E at 1. apply firstn_xor_block_app.
Qed.

Lemma masked_tail_length (key c lbp : list byte) :
  length key = 64 -> length c < 8 -> length lbp = 8 ->
  length (xor_block (xor_block c lbp) (Spec.M key)) = length c.
Proof.
  intros Hk Hc Hl. rewrite !xor_block_length, M_length, Hl by assumption. lia.
Qed.

Lemma decrypt_tail_run (key lbp old obp c : list byte) (n : Z) (w : World) :
  length key = 64 -> 1 <= length c < 8 -> length lbp = 8 -> length old = 8 ->
  wplan w = [] ->
  decrypt_tail key (lbp, read_into c old, obp, length c, n) w =
    ((n + Z.of_nat (length c))%Z,
     after_write (xor_block (xor_block c lbp) (Spec.M key)) w).
Proof.
  intros Hk Hc Hl Ho Hw. rewrite decrypt_tail_chunk by assumption. cbv zeta.
  rewrite decryptBlock_mask by (try apply padded_length; assumption || lia).
  rewrite sys_write_prefix
    by (try rewrite xor_block_length, padded_length, M_length;
        assumption || lia).
  rewrite Z.eqb_refl. cbn [negb].
  now rewrite firstn_masked_tail by (assumption || lia).
Qed.

Lemma encrypt_tail_run (key lbp old c : list byte) (n : Z) (w : World) :
  length key = 64 -> 1 <= length c < 8 -> length lbp = 8 -> length old = 8 ->
  wplan w = [] ->
  encrypt_tail key (lbp, read_into c old, length c, n) w =
    ((n + Z.of_nat (length c))%Z,
     eprint DebugWroteLastBlock
       (after_write (xor_block (xor_block c lbp) (Spec.M key))
          (eprint DebugWroteBytes w))).
Proof.
  intros Hk Hc Hl Ho Hw. rewrite encrypt_tail_chunk by assumption. cbv zeta.
  rewrite encryptBlock_mask by (try apply padded_length; assumption || lia).
  rewrite sys_write_prefix
    by (try rewrite xor_block_length, padded_length, M_length;
        assumption || lia).
  rewrite Z.eqb_refl. cbn [negb].
  now rewrite firstn_masked_tail by (assumption || lia).
Qed.

(* ===================================================================== *)
(** ** Whole runs of the block loops *)
(* ===================================================================== *)

Lemma frame_sizes_short (len : nat) :
  len < 8 -> frame_sizes len = if Nat.eqb len 0 then [] else [len].
Proof.
  intros H. unfold frame_sizes.
  now rewrite Nat.div_small, Nat.mod_small by assumption.
Qed.

Lemma frame_sizes_block (len : nat) :
  frame_sizes (8 + len) = BLOCK_SIZE :: frame_sizes len.
Proof.
  unfold frame_sizes.
  replace (8 + len) with (len + 1 * 8) by lia.
  rewrite Nat.div_add, Nat.Div0.mod_add by lia.
  replace (len / 8 + 1) with (S (len / 8)) by lia. reflexivity.
Qed.

Lemma write_sizes_app (a b : list Syscall) :
  write_sizes (a ++ b) = write_sizes a ++ write_sizes b.
Proof.
  induction a as [|[| |] a IH]; simpl; now rewrite ?IH.
Qed.

Ltac splits := repeat match goal with |- _ /\ _ => split end.

Ltac world_simpl :=
  cbn [after_read after_write log eprint print
       stdin stdout stderr urandom wplan stack calls].

Section Runs.

Variable key : list byte.
Hypothesis Hkey : length key = 64.

(** With every write complete, the encryption loop and tail consume the
    whole input [P], emit as many bytes, in block-sized writes followed by
    one partial write, and the decryption loop and tail started from the
    same chain block turn that output back into [P]. *)
Lemma encrypt_run (fuel : nat) :
  forall (P lbp bp : list byte) (n : Z) (w : World),
    stdin w = P -> wplan w = [] -> length lbp = 8 -> length bp = 8 ->
    length P < fuel ->
    exists ct w',
      encrypt_finish key (encrypt_loop fuel key lbp bp n w)
      = Some ((n + Z.of_nat (length P))%Z, w') /\
      stdout w' = stdout w ++ ct /\
      length ct = length P /\
      write_sizes (calls w')
      = write_sizes (calls w) ++ frame_sizes (length P) /\
      forall (fuel2 : nat) (bp2 obp2 : list byte) (n2 : Z) (w2 : World),
        stdin w2 = ct -> wplan w2 = [] -> length bp2 = 8 ->
        length obp2 = 8 -> length ct < fuel2 ->
        exists w2',
          decrypt_finish key (decrypt_loop fuel2 key lbp bp2 obp2 n2 w2)
          = Some ((n2 + Z.of_nat (length P))%Z, w2') /\
          stdout w2' = stdout w2 ++ P.
Proof.
  induction fuel as [|fuel IH]; intros P lbp bp n w Hin Hw Hl Hb Hf; [lia|].
  destruct (le_lt_dec 8 (length P)) as [Hlong|Hshort].
  - (* a full block is read *)
    pose (p := firstn 8 P). pose (rest := skipn 8 P).
    assert (HP : P = p ++ rest) by (symmetry; apply firstn_skipn).
    assert (Hp : length p = 8) by (unfold p; rewrite length_firstn; lia).
    assert (Hlen : length P = 8 + length rest)
      by (rewrite HP at 1; rewrite length_app; lia).
    pose (ct := encryptBlock (xor_block p lbp) key).
    assert (Hx : length (xor_block p lbp) = 8)
      by (rewrite xor_block_length, Hp, Hl; reflexivity).
    assert (Hct : length ct = 8) by (apply encryptBlock_length; assumption).
    rewrite (encrypt_loop_block fuel key lbp bp n w p rest)
      by congruence.
    cbv zeta. fold ct.
    rewrite sys_write_block by (world_simpl; assumption).
    rewrite Z.eqb_refl. cbn [negb].
    destruct (IH rest ct lbp (n + Z.of_nat BLOCK_SIZE)%Z
                (after_write ct (after_read rest w)))
      as (ct' & w' & Hrun & Hout & Hlen' & Hcalls & Hdec);
      try (world_simpl; reflexivity || assumption || lia).
    exists (ct ++ ct'), w'. splits.
    + rewrite Hrun, Hlen. unfold BLOCK_SIZE. do 2 f_equal. lia.
    + rewrite Hout. world_simpl. now rewrite app_assoc.
    + rewrite length_app. lia.
    + rewrite Hcalls, Hlen, frame_sizes_block. world_simpl.
      rewrite !write_sizes_app, Hct. cbn [write_sizes].
      now rewrite <- !app_assoc.
    + intros [|fuel2] bp2 obp2 n2 w2 Hin2 Hw2 Hb2 Ho2 Hf2; [lia|].
      rewrite (decrypt_loop_block fuel2 key lbp bp2 obp2 n2 w2 ct ct')
        by assumption.
      cbv zeta.
      assert (Hback : xor_block (decryptBlock ct key) lbp = p).
      { unfold ct. rewrite decrypt_encrypt_block by assumption.
        apply xor_block_cancel. lia. }
      rewrite Hback.
      rewrite sys_write_block by (world_simpl; assumption).
      change (Z.eqb (Z.of_nat BLOCK_SIZE) (-1)) with false. cbv iota.
      destruct (Hdec fuel2 lbp p (n2 + Z.of_nat BLOCK_SIZE)%Z
                  (after_write p (after_read ct' w2)))
        as (w2' & Hrun2 & Hout2);
        try (world_simpl; reflexivity || assumption).
      { rewrite length_app in Hf2. lia. }
      exists w2'. split.
      * rewrite Hrun2, Hlen. unfold BLOCK_SIZE. do 2 f_equal. lia.
      * rewrite Hout2. world_simpl. rewrite <- app_assoc. now rewrite <- HP.
  - (* the read falls short: the loop ends *)
    rewrite encrypt_loop_short by (rewrite Hin; assumption).
    rewrite Hin. cbn [encrypt_finish].
    destruct P as [|x P'].
    + (* end of input on a block boundary *)
      exists [], (eprint DebugWroteLastBlock
                    (eprint DebugWroteBytes (after_read [] w))).
      splits.
      * cbn. now rewrite Z.add_0_r.
      * world_simpl. now rewrite app_nil_r.
      * reflexivity.
      * world_simpl. rewrite write_sizes_app. reflexivity.
      * intros [|fuel2] bp2 obp2 n2 w2 Hin2 Hw2 Hb2 Ho2 Hf2; [cbn in Hf2; lia|].
        rewrite decrypt_loop_short by (rewrite Hin2; cbn; lia).
        rewrite Hin2. cbn. exists (after_read [] w2). split.
        -- now rewrite Z.add_0_r.
        -- now rewrite app_nil_r.
    + (* a final partial chunk *)
      set (c := x :: P') in *.
      assert (Hc : 1 <= length c < 8) by (unfold c in *; cbn in *; lia).
      rewrite encrypt_tail_run by (world_simpl; assumption || lia).
      pose (tl := xor_block (xor_block c lbp) (Spec.M key)).
      fold tl.
      assert (Htl : length tl = length c)
        by (apply masked_tail_length; assumption || lia).
      eexists tl, _. splits.
      * reflexivity.
      * world_simpl. reflexivity.
      * exact Htl.
      * world_simpl. rewrite !write_sizes_app, Htl.
        rewrite frame_sizes_short by lia.
        destruct (Nat.eqb_spec (length c) 0); [lia|]. cbn. now rewrite app_nil_r.
      * intros [|fuel2] bp2 obp2 n2 w2 Hin2 Hw2 Hb2 Ho2 Hf2; [lia|].
        rewrite decrypt_loop_short by (rewrite Hin2; lia).
        rewrite Hin2. cbn [decrypt_finish]. rewrite Htl, <- Htl.
        rewrite decrypt_tail_run by (world_simpl; assumption || lia).
        eexists. split; [rewrite Htl; reflexivity|].
        world_simpl. f_equal. unfold tl.
        rewrite (xor_block_swap (xor_block c lbp) (Spec.M key) lbp).
        rewrite (xor_block_cancel c lbp) by lia.
        apply xor_block_cancel. rewrite M_length by assumption. lia.
Qed.

End Runs.

(* ===================================================================== *)
(** ** Whole runs of the stream routines *)
(* ===================================================================== *)

Lemma block_at_length (w : World) (size off : nat) :
  off + 8 <= size -> length (block_at (buf_of w size) off) = 8.
Proof.
  intros H. unfold block_at, buf_of, BLOCK_SIZE.
  rewrite length_firstn, length_skipn, length_map, length_seq. lia.
Qed.

(** [decryptStream] once the first block of the input has been identified. *)
Lemma decryptStream_start (key : list byte) (w : World) (c0 rest : list byte) :
  stdin w = c0 ++ rest -> length c0 = 8 ->
  decryptStream key w =
    decrypt_finish key
      (decrypt_loop (S (length (stdin w))) key c0
         (block_at (buf_of w (3 * BLOCK_SIZE)) BLOCK_SIZE)
         (block_at (buf_of w (3 * BLOCK_SIZE)) (2 * BLOCK_SIZE))
         0 (after_read rest w)).
Proof.
  intros Hin Hc. unfold decryptStream.
  rewrite (sys_read_block _ _ _ Hin Hc).
  rewrite read_into_block
    by (assumption || (apply block_at_length; unfold BLOCK_SIZE; lia)).
  rewrite Hc. reflexivity.
Qed.

(** [encryptStream] once the entropy source has supplied the vector [iv]. *)
Lemma encryptStream_start (key : list byte) (w : World) (iv more : list byte) :
  urandom w = Some (iv ++ more) -> length iv = 8 -> length key = 64 ->
  wplan w = [] ->
  encryptStream key w =
    encrypt_finish key
      (encrypt_loop (S (length (stdin w))) key (encryptBlock iv key)
         (block_at (buf_of w (2 * BLOCK_SIZE)) BLOCK_SIZE) 0
         (eprint DebugInitializedIV
            (after_write (encryptBlock iv key)
               (log (SysRead FdRandom BLOCK_SIZE)
                  (mkWorld (stdin w) (stdout w) (stderr w ++ [DebugEncrypting])
                     (Some more) (wplan w) (stack w)
                     (calls w ++ [SysOpenRandom])))))).
Proof.
  intros Hr Hiv Hk Hw. unfold encryptStream, sys_open_random, sys_read.
  world_simpl. rewrite Hr. cbn [negb].
  rewrite firstn_prefix, skipn_prefix by assumption.
  rewrite read_into_block
    by (assumption || (apply block_at_length; unfold BLOCK_SIZE; lia)).
  rewrite Hiv. cbn [Nat.eqb BLOCK_SIZE negb]. fold BLOCK_SIZE.
  rewrite sys_write_block
    by (world_simpl; assumption || (apply encryptBlock_length; assumption)).
  reflexivity.
Qed.

(** A complete run of [encryptStream], and of [decryptStream] on what it
    wrote. *)
Lemma encryptStream_run (key : list byte) (w : World) (iv more : list byte) :
  length key = 64 -> urandom w = Some (iv ++ more) -> length iv = 8 ->
  wplan w = [] ->
  exists ct w',
    encryptStream key w = Some (Z.of_nat (length (stdin w)), w') /\
    stdout w' = stdout w ++ encryptBlock iv key ++ ct /\
    length ct = length (stdin w) /\
    write_sizes (calls w')
    = write_sizes (calls w) ++ BLOCK_SIZE :: frame_sizes (length (stdin w)) /\
    forall w2 : World,
      stdin w2 = encryptBlock iv key ++ ct -> wplan w2 = [] ->
      exists w2',
        decryptStream key w2 = Some (Z.of_nat (length (stdin w)), w2') /\
        stdout w2' = stdout w2 ++ stdin w.
Proof.
  intros Hk Hr Hiv Hw.
  assert (He : length (encryptBlock iv key) = 8)
    by (apply encryptBlock_length; assumption).
  rewrite (encryptStream_start key w iv more) by assumption.
  match goal with
  | |- context [encrypt_loop ?fuel key ?lbp ?bp ?n ?w1] =>
      destruct (encrypt_run key Hk fuel (stdin w) lbp bp n w1)
        as (ct & w' & Hrun & Hout & Hlen & Hcalls & Hdec)
  end;
    try (world_simpl; reflexivity || assumption || lia).
  exists ct, w'. splits.
  - exact Hrun.
  - rewrite Hout. world_simpl. now rewrite app_assoc.
  - exact Hlen.
  - rewrite Hcalls. world_simpl. rewrite !write_sizes_app, He.
    cbn [write_sizes app]. now rewrite <- !app_assoc.
  - intros w2 Hin2 Hw2.
    rewrite (decryptStream_start key w2 _ _ Hin2 He).
    match goal with
    | |- context [decrypt_loop ?fuel2 key _ ?bp2 ?obp2 ?n2 ?w3] =>
        destruct (Hdec fuel2 bp2 obp2 n2 w3) as (w2' & Hrun2 & Hout2)
    end;
      try (world_simpl; reflexivity || assumption).
    + rewrite Hin2, length_app. lia.
    + exists w2'. split; assumption.
Qed.

(* ===================================================================== *)
(** ** The iteration budget always suffices *)
(* ===================================================================== *)

Lemma sys_write_stdin (p : list byte) (count : nat) (w : World) :
  stdin (snd (sys_write p count w)) = stdin w.
Proof. unfold sys_write. now destruct (wplan w) as [|[m|] plan]. Qed.

Lemma read_shrinks (w : World) :
  length (firstn BLOCK_SIZE (stdin w)) = BLOCK_SIZE ->
  length (stdin (snd (sys_read FdStdin BLOCK_SIZE w))) < length (stdin w).
Proof.
  unfold sys_read, BLOCK_SIZE. cbn [snd]. world_simpl.
  rewrite length_firstn, length_skipn. lia.
Qed.

Lemma encrypt_loop_terminates (fuel : nat) :
  forall (key lbp bp : list byte) (n : Z) (w : World),
    length (stdin w) < fuel ->
    encrypt_loop fuel key lbp bp n w <> OutOfFuel.
Proof.
  induction fuel as [|fuel IH]; intros key lbp bp n w Hf; [lia|].
  cbn [encrypt_loop].
  pose proof (read_shrinks w) as Hs.
  destruct (sys_read FdStdin BLOCK_SIZE w) as [data w1] eqn:Er.
  assert (Hd : data = firstn BLOCK_SIZE (stdin w))
    by (unfold sys_read in Er; now inversion Er).
  cbn [snd] in Hs. rewrite <- Hd in Hs.
  destruct (Nat.eqb_spec (length data) BLOCK_SIZE) as [E|E]; [|discriminate].
  match goal with
  | |- context [sys_write ?p ?c w1] =>
      pose proof (sys_write_stdin p c w1) as Hw;
      destruct (sys_write p c w1) as [r w2]
  end.
  cbn [snd] in Hw.
  destruct (negb _); [discriminate|].
  apply IH. rewrite Hw. specialize (Hs E). lia.
Qed.

Lemma decrypt_loop_terminates (fuel : nat) :
  forall (key lbp bp obp : list byte) (n : Z) (w : World),
    length (stdin w) < fuel ->
    decrypt_loop fuel key lbp bp obp n w <> OutOfFuel.
Proof.
  induction fuel as [|fuel IH]; intros key lbp bp obp n w Hf; [lia|].
  cbn [decrypt_loop].
  pose proof (read_shrinks w) as Hs.
  destruct (sys_read FdStdin BLOCK_SIZE w) as [data w1] eqn:Er.
  assert (Hd : data = firstn BLOCK_SIZE (stdin w))
    by (unfold sys_read in Er; now inversion Er).
  cbn [snd] in Hs. rewrite <- Hd in Hs.
  destruct (Nat.eqb_spec (length data) BLOCK_SIZE) as [E|E]; [|discriminate].
  match goal with
  | |- context [sys_write ?p ?c w1] =>
      pose proof (sys_write_stdin p c w1) as Hw;
      destruct (sys_write p c w1) as [r w2]
  end.
  cbn [snd] in Hw.
  destruct (Z.eqb _ _); [discriminate|].
  apply IH. rewrite Hw. specialize (Hs E). lia.
Qed.

(** [encryptStream] returns, whatever the key, the input and the devices. *)
Lemma encryptStream_total (key : list byte) (w : World) :
  exists r w', encryptStream key w = Some (r, w').
Proof.
  unfold encryptStream.
  destruct (sys_open_random _) as [opened w1] eqn:Eo.
  destruct (negb opened); [eauto|].
  destruct (sys_read FdRandom BLOCK_SIZE w1) as [data w2] eqn:Er.
  destruct (negb _); [eauto|].
  destruct (sys_write _ _ w2) as [r0 w3] eqn:Ew.
  assert (Hin : stdin (eprint DebugInitializedIV w3) = stdin w).
  { world_simpl.
    pose proof (sys_write_stdin
                  (encryptBlock
                     (read_into data (block_at (buf_of w (2 * BLOCK_SIZE)) 0))
                     key) BLOCK_SIZE w2) as Hw.
    rewrite Ew in Hw. cbn [snd] in Hw. rewrite Hw.
    unfold sys_read in Er. unfold sys_open_random in Eo.
    inversion Eo; subst w1. revert Er. world_simpl.
    destruct (urandom w); intros Er; inversion Er; reflexivity. }
  match goal with
  | |- context [encrypt_loop ?fuel key ?lbp ?bp ?n ?w4] =>
      pose proof (encrypt_loop_terminates fuel key lbp bp n w4) as Ht;
      destruct (encrypt_loop fuel key lbp bp n w4) as [st w5|r w5|]
  end.
  - cbn [encrypt_finish]. destruct (encrypt_tail key st w5). eauto.
  - cbn [encrypt_finish]. eauto.
  - exfalso. apply Ht; [rewrite Hin; lia | reflexivity].
Qed.

(** [decryptStream] returns, whatever the key, the input and the devices. *)
Lemma decryptStream_total (key : list byte) (w : World) :
  exists r w', decryptStream key w = Some (r, w').
Proof.
  unfold decryptStream.
  destruct (sys_read FdStdin BLOCK_SIZE w) as [data w1] eqn:Er.
  destruct (negb _); [eauto|].
  assert (Hin : length (stdin w1) <= length (stdin w)).
  { replace w1 with (snd (sys_read FdStdin BLOCK_SIZE w)) by now rewrite Er.
    unfold sys_read. cbn [snd]. world_simpl. rewrite length_skipn. lia. }
  match goal with
  | |- context [decrypt_loop ?fuel key ?lbp ?bp ?obp ?n ?w4] =>
      pose proof (decrypt_loop_terminates fuel key lbp bp obp n w4) as Ht;
      destruct (decrypt_loop fuel key lbp bp obp n w4) as [st w5|r w5|]
  end.
  - cbn [decrypt_finish]. destruct (decrypt_tail key st w5). eauto.
  - cbn [decrypt_finish]. eauto.
  - exfalso. apply Ht; [lia | reflexivity].
Qed.

(* ===================================================================== *)
(** ** The block transform: C3, C8, C10 *)
(* ===================================================================== *)

(** C3. For every 8-byte block and every 64-byte key, [decryptBlock] applied
    to the result of [encryptBlock] under the same key gives the block back;
    its witness is the block [0..7] under the key [0..63]. *)
Theorem block_round_trip (b key : list byte) :
  length b = 8 -> length key = 64 ->
  decryptBlock (encryptBlock b key) key = b.
Proof. exact (decrypt_encrypt_block b key). Qed.

Lemma block_round_trip_witness :
  length block_0_7 = 8 /\ length key_0_63 = 64 /\
  decryptBlock (encryptBlock block_0_7 key_0_63) key_0_63 = block_0_7.
Proof.
  split; [reflexivity|]. split; [reflexivity|].
  apply (block_round_trip block_0_7 key_0_63); reflexivity.
Defined.

(** C8. On an 8-byte block and a 64-byte key, [encryptBlock] computes what
    the specification describes: rounds 0..15 in order, within each round
    half-indices 0..3 in order, each doing [t = right[i]],
    [right[i] = left[i] XOR RoundFunction(right[i], key[r*4+i])],
    [left[i] = t]; and the round function [f] returns its key byte whatever
    its first argument. *)
Theorem encryptBlock_refines_spec (b key : list byte) :
  length b = 8 -> length key = 64 ->
  encryptBlock b key = Spec.Encrypt b key /\
  (forall r k, f r k = Spec.RoundFunction r k) /\
  (forall r r' k, f r k = k /\ f r k = f r' k).
Proof.
  intros Hb Hk. split; [|split; [reflexivity | split; reflexivity]].
  explode b Hb. explode key Hk. cbv -[byte_xor]. reflexivity.
Qed.

Lemma encryptBlock_refines_spec_witness :
  length block_0_7 = 8 /\ length key_phrase = 64 /\
  encryptBlock block_0_7 key_phrase = Spec.Encrypt block_0_7 key_phrase /\
  (forall r k, f r k = Spec.RoundFunction r k) /\
  (forall r r' k, f r k = k /\ f r k = f r' k).
Proof.
  split; [reflexivity|]. split; [reflexivity|].
  apply (encryptBlock_refines_spec block_0_7 key_phrase); reflexivity.
Defined.

(** C10. On an 8-byte block [b] and a 64-byte key, [encryptBlock] and
    [decryptBlock] are the same function, the byte-wise exclusive or of [b]
    with the mask [M key] (left half: the even-round key slices xored
    together; right half: the odd-round ones); so each of them is an
    involution and commutes with xoring any 8-byte block into its input. *)
Theorem block_transform_is_mask (b key : list byte) :
  length b = 8 -> length key = 64 ->
  encryptBlock b key = xor_block b (Spec.M key) /\
  decryptBlock b key = xor_block b (Spec.M key) /\
  encryptBlock b key = decryptBlock b key /\
  encryptBlock (encryptBlock b key) key = b /\
  decryptBlock (decryptBlock b key) key = b /\
  forall d : list byte,
    length d = 8 ->
    encryptBlock (xor_block b d) key = xor_block (encryptBlock b key) d /\
    decryptBlock (xor_block b d) key = xor_block (decryptBlock b key) d.
Proof.
  intros Hb Hk.
  assert (HM : length (Spec.M key) = 8) by (apply M_length; assumption).
  assert (Hx : length (xor_block b (Spec.M key)) = 8)
    by (rewrite xor_block_length, Hb, HM; reflexivity).
  splits.
  - apply encryptBlock_mask; assumption.
  - apply decryptBlock_mask; assumption.
  - now rewrite encryptBlock_mask, decryptBlock_mask.
  - rewrite (encryptBlock_mask b key Hb Hk), encryptBlock_mask by assumption.
    apply xor_block_cancel. lia.
  - rewrite (decryptBlock_mask b key Hb Hk), decryptBlock_mask by assumption.
    apply xor_block_cancel. lia.
  - intros d Hd.
    assert (Hbd : length (xor_block b d) = 8)
      by (rewrite xor_block_length, Hb, Hd; reflexivity).
    rewrite (encryptBlock_mask b key Hb Hk), (decryptBlock_mask b key Hb Hk).
    rewrite encryptBlock_mask, decryptBlock_mask by assumption.
    split; apply xor_block_swap.
Qed.

Lemma block_transform_is_mask_witness :
  length block_0_7 = 8 /\ length key_phrase = 64 /\
  encryptBlock block_0_7 key_phrase = xor_block block_0_7 (Spec.M key_phrase)
  /\ decryptBlock block_0_7 key_phrase
     = xor_block block_0_7 (Spec.M key_phrase) /\
  encryptBlock block_0_7 key_phrase = decryptBlock block_0_7 key_phrase /\
  encryptBlock (encryptBlock block_0_7 key_phrase) key_phrase = block_0_7 /\
  decryptBlock (decryptBlock block_0_7 key_phrase) key_phrase = block_0_7 /\
  forall d : list byte,
    length d = 8 ->
    encryptBlock (xor_block block_0_7 d) key_phrase
    = xor_block (encryptBlock block_0_7 key_phrase) d /\
    decryptBlock (xor_block block_0_7 d) key_phrase
    = xor_block (decryptBlock block_0_7 key_phrase) d.
Proof.
  split; [reflexivity|]. split; [reflexivity|].
  apply (block_transform_is_mask block_0_7 key_phrase); reflexivity.
Defined.

(* ===================================================================== *)
(** ** The stream routines: C1, C6, C9 *)
(* ===================================================================== *)

(** C1. For every byte sequence [P] on standard input and every 64-byte key,
    when the entropy source supplies the 8 bytes [iv] (any 8 bytes) and
    every write is complete, [encryptStream] returns [length P] having
    written a ciphertext [ct], and [decryptStream] run with the same key on
    [ct] returns [length P] having written exactly [P]. *)
Theorem stream_round_trip (P key iv more : list byte) (w : World) :
  length key = 64 -> length iv = 8 -> urandom w = Some (iv ++ more) ->
  stdin w = P -> wplan w = [] ->
  exists ct w',
    encryptStream key w = Some (Z.of_nat (length P), w') /\
    stdout w' = stdout w ++ ct /\
    forall w2 : World,
      stdin w2 = ct -> wplan w2 = [] ->
      exists w2',
        decryptStream key w2 = Some (Z.of_nat (length P), w2') /\
        stdout w2' = stdout w2 ++ P.
Proof.
  intros Hk Hiv Hr Hin Hw. subst P.
  destruct (encryptStream_run key w iv more Hk Hr Hiv Hw)
    as (ct & w' & Hrun & Hout & _ & _ & Hdec).
  exists (encryptBlock iv key ++ ct), w'. splits; try assumption.
Qed.

Lemma stream_round_trip_witness :
  length key_phrase = 64 /\ length letters8 = 8 /\
  exists ct w',
    encryptStream key_phrase (world_of digits10 (Some (letters8 ++ [])) [])
    = Some (Z.of_nat (length digits10), w') /\
    stdout w' = [] ++ ct /\
    forall w2 : World,
      stdin w2 = ct -> wplan w2 = [] ->
      exists w2',
        decryptStream key_phrase w2 = Some (Z.of_nat (length digits10), w2') /\
        stdout w2' = stdout w2 ++ digits10.
Proof.
  split; [reflexivity|]. split; [reflexivity|].
  apply (stream_round_trip digits10 key_phrase letters8 []
           (world_of digits10 (Some (letters8 ++ [])) []));
    reflexivity.
Defined.

(** C6. For every input and 64-byte key, when the entropy source supplies 8
    bytes and every write is complete, [encryptStream] writes the 8-byte
    encrypted vector followed by [ct] with [length ct = len]: in all
    [8 + 8 * (len / 8) + len mod 8 = len + 8] bytes, in writes of 8 bytes
    for the vector, 8 bytes for each of the [len / 8] full blocks, and one
    last write of [len mod 8] bytes only if that is not zero. *)
Theorem length_framing (key iv more : list byte) (w : World) :
  length key = 64 -> length iv = 8 -> urandom w = Some (iv ++ more) ->
  wplan w = [] ->
  let len := length (stdin w) in
  exists ct w',
    encryptStream key w = Some (Z.of_nat len, w') /\
    stdout w' = stdout w ++ encryptBlock iv key ++ ct /\
    length (encryptBlock iv key) = 8 /\
    length ct = len /\
    length (encryptBlock iv key ++ ct) = 8 + 8 * (len / 8) + len mod 8 /\
    length (encryptBlock iv key ++ ct) = len + 8 /\
    write_sizes (calls w')
    = write_sizes (calls w)
      ++ 8 :: repeat 8 (len / 8)
      ++ (if Nat.eqb (len mod 8) 0 then [] else [len mod 8]).
Proof.
  intros Hk Hiv Hr Hw len.
  destruct (encryptStream_run key w iv more Hk Hr Hiv Hw)
    as (ct & w' & Hrun & Hout & Hlen & Hcalls & _).
  assert (He : length (encryptBlock iv key) = 8)
    by (apply encryptBlock_length; assumption).
  exists ct, w'. splits; try assumption.
  - rewrite length_app, He, Hlen. fold len.
    pose proof (Nat.div_mod_eq len 8). lia.
  - rewrite length_app, He, Hlen. fold len. lia.
Qed.

Lemma length_framing_witness :
  length key_phrase = 64 /\ length letters8 = 8 /\
  exists ct w',
    encryptStream key_phrase (world_of digits10 (Some (letters8 ++ [])) [])
    = Some (10%Z, w') /\
    length (encryptBlock letters8 key_phrase ++ ct) = 18 /\
    write_sizes (calls w') = [8; 8; 2].
Proof.
  split; [reflexivity|]. split; [reflexivity|].
  destruct (length_framing key_phrase letters8 []
              (world_of digits10 (Some (letters8 ++ [])) []))
    as (ct & w' & Hrun & _ & _ & _ & _ & Hlen & Hcalls);
    try reflexivity.
  exists ct, w'. split; [exact Hrun|]. split; [exact Hlen | exact Hcalls].
Defined.

(** C9. If the entropy source cannot be opened, or supplies fewer than 8
    bytes, [encryptStream] returns -1 and has written nothing: standard
    output is unchanged, no write was issued and standard input is
    untouched. *)
Theorem entropy_failure_before_output (key : list byte) (w : World) :
  urandom w = None \/ (exists l, urandom w = Some l /\ length l < 8) ->
  exists w',
    encryptStream key w = Some ((-1)%Z, w') /\
    stdout w' = stdout w /\
    write_sizes (calls w') = write_sizes (calls w) /\
    stdin w' = stdin w.
Proof.
  intros [Hn | (l & Hs & Hl)]; unfold encryptStream, sys_open_random, sys_read;
    world_simpl; [rewrite Hn | rewrite Hs]; cbn [negb].
  - eexists. splits; [reflexivity | | |]; world_simpl;
      rewrite ?write_sizes_app, ?app_nil_r; reflexivity.
  - destruct (Nat.eqb_spec (length (firstn BLOCK_SIZE l)) BLOCK_SIZE) as [E|E].
    { rewrite length_firstn in E. unfold BLOCK_SIZE in E. lia. }
    cbn [negb]. eexists. splits; [reflexivity | | |]; world_simpl;
      rewrite ?write_sizes_app, ?app_nil_r; reflexivity.
Qed.

Lemma entropy_failure_before_output_witness :
  (urandom (world_of digits10 (Some [x01; x02; x03]) []) = None \/
   exists l, urandom (world_of digits10 (Some [x01; x02; x03]) []) = Some l
             /\ length l < 8) /\
  exists w',
    encryptStream key_phrase (world_of digits10 (Some [x01; x02; x03]) [])
    = Some ((-1)%Z, w') /\
    stdout w' = [] /\ write_sizes (calls w') = [] /\ stdin w' = digits10.
Proof.
  assert (H : urandom (world_of digits10 (Some [x01; x02; x03]) []) = None \/
              exists l,
                urandom (world_of digits10 (Some [x01; x02; x03]) []) = Some l
                /\ length l < 8).
  { right. exists [x01; x02; x03]. split; [reflexivity | simpl; lia]. }
  split; [exact H|].
  exact (entropy_failure_before_output key_phrase
           (world_of digits10 (Some [x01; x02; x03]) []) H).
Defined.

(* ===================================================================== *)
(** ** Inside decryptStream: C5, C2 *)
(* ===================================================================== *)

(** C5. In the block loop of [decryptStream], when a full 8-byte chunk [c]
    is read while the chain block is [lbp], the block handed to [write] is
    the decrypt transform of [c] xored byte-wise with [lbp] (the code xors
    first and transforms second, which gives the same block), and unless
    that write returns -1 the loop goes on with [c] itself, untransformed,
    as chain block. *)
Theorem decrypt_block_step (fuel : nat) (key lbp bp obp : list byte) (n : Z)
  (w : World) (c rest : list byte) :
  stdin w = c ++ rest -> length c = 8 -> length key = 64 ->
  length lbp = 8 -> length bp = 8 -> length obp = 8 ->
  let out := xor_block (decryptBlock c key) lbp in
  out = decryptBlock (xor_block c lbp) key /\
  decrypt_loop (S fuel) key lbp bp obp n w =
    let '(r, w') := sys_write out BLOCK_SIZE (after_read rest w) in
    if Z.eqb r (-1) then Returns (-1) w'
    else decrypt_loop fuel key c lbp out (n + Z.of_nat BLOCK_SIZE) w'.
Proof.
  intros Hin Hc Hk Hl Hb Ho out. split.
  - unfold out.
    assert (Hx : length (xor_block c lbp) = 8)
      by (rewrite xor_block_length, Hc, Hl; reflexivity).
    rewrite !decryptBlock_mask by assumption. apply xor_block_swap.
  - apply decrypt_loop_block; assumption.
Qed.

Lemma decrypt_block_step_witness :
  length letters8 = 8 /\ length key_phrase = 64 /\
  let w := world_of (letters8 ++ [x41; x42]) None [] in
  let out := xor_block (decryptBlock letters8 key_phrase) digits8 in
  out = decryptBlock (xor_block letters8 digits8) key_phrase /\
  decrypt_loop 2 key_phrase digits8 letters8 letters8 0 w =
    let '(r, w') := sys_write out BLOCK_SIZE (after_read [x41; x42] w) in
    if Z.eqb r (-1) then Returns (-1) w'
    else decrypt_loop 1 key_phrase letters8 digits8 out
           (0 + Z.of_nat BLOCK_SIZE) w'.
Proof.
  split; [reflexivity|]. split; [reflexivity|].
  apply (decrypt_block_step 1 key_phrase digits8 letters8 letters8 0
           (world_of (letters8 ++ [x41; x42]) None []) letters8 [x41; x42]);
    reflexivity.
Defined.

(** C2, as the code has it. In [decryptStream], a final chunk [c] of 1 to 7
    bytes is xored with the first [length c] bytes of the chain block,
    padded with zeros to 8 bytes and run through [decryptBlock]; the first
    [length c] bytes of the transformed block are handed to [write], and
    with that write complete the routine returns the byte count. *)
Theorem decrypt_tail_is_transformed (fuel : nat) (key lbp bp obp : list byte)
  (n : Z) (w : World) :
  1 <= length (stdin w) < 8 -> length lbp = 8 -> length bp = 8 ->
  let c := stdin w in
  let out := decryptBlock (xor_block c lbp ++ repeat x00 (8 - length c)) key in
  decrypt_finish key (decrypt_loop (S fuel) key lbp bp obp n w) =
    Some (let '(r, w') := sys_write out (length c) (after_read [] w) in
          if negb (Z.eqb r (Z.of_nat (length c))) then ((-1)%Z, w')
          else ((n + Z.of_nat (length c))%Z, w')) /\
  (wplan w = [] -> length key = 64 ->
   decrypt_finish key (decrypt_loop (S fuel) key lbp bp obp n w) =
     Some ((n + Z.of_nat (length c))%Z,
           after_write (firstn (length c) out) (after_read [] w))).
Proof.
  intros Hc Hl Hb c out.
  assert (Hstep :
    decrypt_finish key (decrypt_loop (S fuel) key lbp bp obp n w) =
    Some (let '(r, w') := sys_write out (length c) (after_read [] w) in
          if negb (Z.eqb r (Z.of_nat (length c))) then ((-1)%Z, w')
          else ((n + Z.of_nat (length c))%Z, w'))).
  { rewrite decrypt_loop_short by lia. cbn [decrypt_finish]. fold c.
    now rewrite decrypt_tail_chunk by assumption. }
  split; [exact Hstep|].
  intros Hw Hk. rewrite Hstep. cbv zeta.
  rewrite sys_write_prefix.
  - now rewrite Z.eqb_refl.
  - world_simpl. assumption.
  - assert (Ho : length out = 8).
    { unfold out. apply decryptBlock_length; [|assumption].
      apply padded_length; [unfold c; lia | assumption]. }
    rewrite Ho. unfold c. lia.
Qed.

Lemma decrypt_tail_is_transformed_witness :
  let w := world_of [x41; x42] None [] in
  let c := stdin w in
  let out :=
    decryptBlock (xor_block c letters8 ++ repeat x00 (8 - length c))
      key_phrase in
  1 <= length (stdin w) < 8 /\ length letters8 = 8 /\
  wplan w = [] /\ length key_phrase = 64 /\
  decrypt_finish key_phrase
    (decrypt_loop 1 key_phrase letters8 letters8 letters8 0 w) =
    Some (let '(r, w') := sys_write out (length c) (after_read [] w) in
          if negb (Z.eqb r (Z.of_nat (length c))) then ((-1)%Z, w')
          else ((0 + Z.of_nat (length c))%Z, w')) /\
  decrypt_finish key_phrase
    (decrypt_loop 1 key_phrase letters8 letters8 letters8 0 w) =
    Some ((0 + Z.of_nat (length c))%Z,
          after_write (firstn (length c) out) (after_read [] w)).
Proof.
  intros w c out.
  assert (Hc : 1 <= length (stdin w) < 8) by (simpl; lia).
  split; [exact Hc|]. split; [reflexivity|].
  split; [reflexivity|]. split; [reflexivity|].
  pose proof (decrypt_tail_is_transformed 0 key_phrase letters8 letters8
                letters8 0 w Hc eq_refl eq_refl) as [Hany Hfull].
  split; [exact Hany | exact (Hfull eq_refl eq_refl)].
Defined.

(** C2, as it is worded, fails: under the key [key_phrase], with the chain
    block "ABCDEFGH" and the final chunk "AB", [decryptStream] writes the
    two bytes 0x16 0x58, not the two zero bytes that xoring the padded chunk
    with the chain block alone would give. *)
Lemma decrypt_tail_not_xor_only :
  output_of
    (decryptStream key_phrase (world_of (letters8 ++ [x41; x42]) None []))
  = [x16; x58] /\
  SpecTail.xor_only [x41; x42] letters8 = [x00; x00] /\
  output_of
    (decryptStream key_phrase (world_of (letters8 ++ [x41; x42]) None []))
  <> SpecTail.xor_only [x41; x42] letters8.
Proof.
  split; [reflexivity|]. split; [reflexivity|].
  vm_compute. discriminate.
Qed.

(* ===================================================================== *)
(** ** Short writes: C4 *)
(* ===================================================================== *)

(** The block loop of [encryptStream] does abort on a short write. *)
Lemma encrypt_loop_short_write_aborts (fuel : nat) (key lbp bp : list byte)
  (n : Z) (w : World) (p rest : list byte) (m : nat)
  (plan : list (option nat)) :
  stdin w = p ++ rest -> length p = 8 -> length lbp = 8 -> length bp = 8 ->
  wplan w = Some m :: plan -> m < 8 ->
  exists w', encrypt_loop (S fuel) key lbp bp n w = Returns (-1) w'.
Proof.
  intros Hin Hp Hl Hb Hw Hm.
  rewrite (encrypt_loop_block fuel key lbp bp n w p rest) by assumption.
  cbv zeta. unfold sys_write. world_simpl. rewrite Hw.
  rewrite Nat.min_l by (unfold BLOCK_SIZE; lia).
  destruct (Z.eqb_spec (Z.of_nat m) (Z.of_nat BLOCK_SIZE)) as [E|E].
  - unfold BLOCK_SIZE in E. lia.
  - cbn [negb]. eauto.
Qed.

(** The block loop of [decryptStream] does not: after a write that took
    only [m < 8] bytes it goes on to the next chunk. *)
Lemma decrypt_loop_short_write_continues (fuel : nat)
  (key lbp bp obp : list byte) (n : Z) (w : World) (c rest : list byte)
  (m : nat) (plan : list (option nat)) :
  stdin w = c ++ rest -> length c = 8 -> length key = 64 ->
  length lbp = 8 -> length bp = 8 -> length obp = 8 ->
  wplan w = Some m :: plan -> m < 8 ->
  exists w',
    decrypt_loop (S fuel) key lbp bp obp n w =
      decrypt_loop fuel key c lbp (xor_block (decryptBlock c key) lbp)
        (n + Z.of_nat BLOCK_SIZE) w' /\
    stdout w' = stdout w ++ firstn m (xor_block (decryptBlock c key) lbp) /\
    stdin w' = rest.
Proof.
  intros Hin Hc Hk Hl Hb Ho Hw Hm.
  rewrite (decrypt_loop_block fuel key lbp bp obp n w c rest) by assumption.
  cbv zeta. unfold sys_write. world_simpl. rewrite Hw.
  rewrite Nat.min_l by (unfold BLOCK_SIZE; lia).
  destruct (Z.eqb_spec (Z.of_nat m) (-1)) as [E|E]; [lia|].
  eexists. splits; [reflexivity | |]; world_simpl; reflexivity.
Qed.

(** X16. The final write of either routine is checked: when it takes fewer
    bytes than the final chunk has, [encrypt_tail] and [decrypt_tail] both
    give -1. *)
Lemma tail_short_write_aborts (key lbp old obp c : list byte) (n : Z)
  (w : World) (m : nat) (plan : list (option nat)) :
  1 <= length c < 8 -> length lbp = 8 -> length old = 8 ->
  wplan w = Some m :: plan -> m < length c ->
  fst (encrypt_tail key (lbp, read_into c old, length c, n) w) = (-1)%Z /\
  fst (decrypt_tail key (lbp, read_into c old, obp, length c, n) w) = (-1)%Z.
Proof.
  intros Hc Hl Ho Hw Hm.
  rewrite encrypt_tail_chunk, decrypt_tail_chunk by assumption.
  cbv zeta. unfold sys_write. world_simpl. rewrite Hw.
  rewrite Nat.min_l by lia.
  destruct (Z.eqb_spec (Z.of_nat m) (Z.of_nat (length c))) as [E|E]; [lia|].
  split; reflexivity.
Qed.

(** C4, where the code falls short of it. A first write that takes only 3
    of the 8 bytes of the encrypted vector goes unnoticed by [encryptStream],
    which then encrypts the next block and returns 8; and a write that
    takes only 3 bytes of a decrypted full block goes unnoticed by
    [decryptStream], which then processes the next block and returns 16.
    In both runs 11 bytes reach standard output where 16 were due. *)
Theorem short_write_undetected :
  status_of
    (encryptStream key_phrase (world_of letters8 (Some digits8) [Some 3]))
  = Some 8%Z /\
  length
    (output_of
       (encryptStream key_phrase (world_of letters8 (Some digits8) [Some 3])))
  = 11 /\
  status_of (decryptStream key_phrase (world_of letters24 None [Some 3]))
  = Some 16%Z /\
  length
    (output_of (decryptStream key_phrase (world_of letters24 None [Some 3])))
  = 11.
Proof. splits; reflexivity. Qed.

(* ===================================================================== *)
(** ** main: C7 *)
(* ===================================================================== *)

(** What [main] does with a key string of the wrong length. *)
Lemma main_rejects (argv : list cstring) (w : World) (kp : cstring)
  (is_decrypting : bool) :
  2 <= length argv <= 3 ->
  parse_flags (length argv) argv [] false = (kp, is_decrypting) ->
  length kp <> 64 ->
  main argv w = Some (0%Z, eprint ErrorKeyLength w).
Proof.
  intros Hargc Hparse Hlen. unfold main. rewrite Hparse.
  destruct (Nat.ltb_spec (length argv) 2) as [H2|H2]; [lia|].
  destruct (Nat.ltb_spec 3 (length argv)) as [H3|H3]; [lia|].
  cbn [orb].
  destruct (Nat.eqb_spec (length kp) KEY_LENGTH) as [E|E];
    [contradiction | reflexivity].
Qed.

Lemma not_dash (key : cstring) :
  deref key <> x2d -> Byte.eqb (deref key) x2d = false.
Proof.
  intros H. destruct (Byte.eqb (deref key) x2d) eqn:E; [|reflexivity].
  apply Byte.byte_dec_bl in E. contradiction.
Qed.

(** A key that does not begin with a dash is taken as it is, with or
    without the flag "-d" before it. *)
Lemma parse_flags_key (prog key : cstring) :
  deref key <> x2d ->
  parse_flags 2 [prog; key] [] false = (key, false) /\
  parse_flags 3 [prog; dash_d; key] [] false = (key, true).
Proof.
  intros H. cbn. now rewrite (not_dash key H).
Qed.




(** With a 64-byte key string, [main] hands it to the stream routine the
    flags select. *)
Lemma main_runs_stream (argv : list cstring) (w : World) (kp : cstring)
  (is_decrypting : bool) :
  2 <= length argv <= 3 ->
  parse_flags (length argv) argv [] false = (kp, is_decrypting) ->
  length kp = 64 ->
  main argv w =
    match (if is_decrypting
           then decryptStream kp (eprint (DebugFlags is_decrypting kp) w)
           else encryptStream kp (eprint (DebugFlags is_decrypting kp) w)) with
    | Some (n, w') =>
        if Z.eqb n (-1) then Some (0%Z, eprint ErrorProcedureFailure w')
        else Some (0%Z, eprint (BytesProcessed n) w')
    | None => None
    end.
Proof.
  intros Hargc Hparse Hlen. unfold main. rewrite Hparse.
  destruct (Nat.ltb_spec (length argv) 2) as [H2|H2]; [lia|].
  destruct (Nat.ltb_spec 3 (length argv)) as [H3|H3]; [lia|].
  cbn [orb]. rewrite Hlen. reflexivity.
Qed.

(** The key string is what is left of the last argument once flag parsing
    is over: an argument that begins with a dash loses it, so a 65-byte
    argument "-" followed by 64 bytes yields a 64-byte key string. *)
Lemma parse_flags_strips_dash (prog : cstring) :
  parse_flags 3 [prog; list_byte_of_string "-d"; x2d :: key_phrase] [] false
  = (key_phrase, true).
Proof. reflexivity. Qed.

(* ===================================================================== *)
(** ** Further properties: runs of decryptStream on arbitrary input *)
(* ===================================================================== *)

(** Encrypting what [decryptBlock] produced gives the block back. *)
Lemma encrypt_decrypt_block (b key : list byte) :
  length b = 8 -> length key = 64 ->
  encryptBlock (decryptBlock b key) key = b.
Proof.
  intros Hb Hk.
  rewrite encryptBlock_mask by (auto using decryptBlock_length).
  rewrite decryptBlock_mask by assumption.
  apply xor_block_cancel. rewrite M_length by assumption. lia.
Qed.

Section DecryptRuns.

Variable key : list byte.
Hypothesis Hkey : length key = 64.

(** With every write complete, the decryption loop and tail consume any
    input [ct], emit as many bytes [P], and the encryption loop and tail
    started from the same chain block turn [P] back into [ct]. *)
Lemma decrypt_run (fuel : nat) :
  forall (ct lbp bp obp : list byte) (n : Z) (w : World),
    stdin w = ct -> wplan w = [] -> length lbp = 8 -> length bp = 8 ->
    length obp = 8 -> length ct < fuel ->
    exists P w',
      decrypt_finish key (decrypt_loop fuel key lbp bp obp n w)
      = Some ((n + Z.of_nat (length ct))%Z, w') /\
      stdout w' = stdout w ++ P /\
      length P = length ct /\
      write_sizes (calls w')
      = write_sizes (calls w) ++ frame_sizes (length ct) /\
      forall (fuel2 : nat) (bp2 : list byte) (n2 : Z) (w2 : World),
        stdin w2 = P -> wplan w2 = [] -> length bp2 = 8 ->
        length P < fuel2 ->
        exists w2',
          encrypt_finish key (encrypt_loop fuel2 key lbp bp2 n2 w2)
          = Some ((n2 + Z.of_nat (length ct))%Z, w2') /\
          stdout w2' = stdout w2 ++ ct.
Proof.
  induction fuel as [|fuel IH]; intros ct lbp bp obp n w Hin Hw Hl Hb Ho Hf;
    [lia|].
  destruct (le_lt_dec 8 (length ct)) as [Hlong|Hshort].
  - pose (c := firstn 8 ct). pose (rest := skipn 8 ct).
    assert (Hct : ct = c ++ rest) by (symmetry; apply firstn_skipn).
    assert (Hc : length c = 8) by (unfold c; rewrite length_firstn; lia).
    assert (Hlen : length ct = 8 + length rest)
      by (rewrite Hct at 1; rewrite length_app; lia).
    pose (p := xor_block (decryptBlock c key) lbp).
    assert (Hd : length (decryptBlock c key) = 8)
      by (apply decryptBlock_length; assumption).
    assert (Hp : length p = 8)
      by (unfold p; rewrite xor_block_length, Hd, Hl; reflexivity).
    rewrite (decrypt_loop_block fuel key lbp bp obp n w c rest)
      by congruence.
    cbv zeta. fold p.
    rewrite sys_write_block by (world_simpl; assumption).
    change (Z.eqb (Z.of_nat BLOCK_SIZE) (-1)) with false. cbv iota.
    destruct (IH rest c lbp p (n + Z.of_nat BLOCK_SIZE)%Z
                (after_write p (after_read rest w)))
      as (P' & w' & Hrun & Hout & Hlen' & Hcalls & Henc);
      try (world_simpl; reflexivity || assumption || lia).
    exists (p ++ P'), w'. splits.
    + rewrite Hrun, Hlen. unfold BLOCK_SIZE. do 2 f_equal. lia.
    + rewrite Hout. world_simpl. now rewrite app_assoc.
    + rewrite length_app. lia.
    + rewrite Hcalls, Hlen, frame_sizes_block. world_simpl.
      rewrite !write_sizes_app, Hp. cbn [write_sizes].
      now rewrite <- !app_assoc.
    + intros [|fuel2] bp2 n2 w2 Hin2 Hw2 Hb2 Hf2; [lia|].
      rewrite (encrypt_loop_block fuel2 key lbp bp2 n2 w2 p P')
        by assumption.
      cbv zeta.
      assert (Hback : encryptBlock (xor_block p lbp) key = c).
      { unfold p. rewrite xor_block_cancel by lia.
        apply encrypt_decrypt_block; assumption. }
      rewrite Hback.
      rewrite sys_write_block by (world_simpl; assumption).
      rewrite Z.eqb_refl. cbn [negb].
      destruct (Henc fuel2 lbp (n2 + Z.of_nat BLOCK_SIZE)%Z
                  (after_write c (after_read P' w2)))
        as (w2' & Hrun2 & Hout2);
        try (world_simpl; reflexivity || assumption).
      { rewrite length_app in Hf2. lia. }
      exists w2'. split.
      * rewrite Hrun2, Hlen. unfold BLOCK_SIZE. do 2 f_equal. lia.
      * rewrite Hout2. world_simpl. rewrite <- app_assoc. now rewrite <- Hct.
  - rewrite decrypt_loop_short by (rewrite Hin; assumption).
    rewrite Hin. cbn [decrypt_finish].
    destruct ct as [|x ct'].
    + exists [], (after_read [] w). splits.
      * cbn. now rewrite Z.add_0_r.
      * world_simpl. now rewrite app_nil_r.
      * reflexivity.
      * world_simpl. rewrite write_sizes_app. reflexivity.
      * intros [|fuel2] bp2 n2 w2 Hin2 Hw2 Hb2 Hf2; [cbn in Hf2; lia|].
        rewrite encrypt_loop_short by (rewrite Hin2; cbn; lia).
        rewrite Hin2. cbn. eexists. split.
        -- now rewrite Z.add_0_r.
        -- now rewrite app_nil_r.
    + set (c := x :: ct') in *.
      assert (Hc : 1 <= length c < 8) by (unfold c in *; cbn in *; lia).
      rewrite decrypt_tail_run by (world_simpl; assumption || lia).
      pose (tl := xor_block (xor_block c lbp) (Spec.M key)).
      fold tl.
      assert (Htl : length tl = length c)
        by (apply masked_tail_length; assumption || lia).
      eexists tl, _. splits.
      * reflexivity.
      * world_simpl. reflexivity.
      * exact Htl.
      * world_simpl. rewrite !write_sizes_app, Htl.
        rewrite frame_sizes_short by lia.
        destruct (Nat.eqb_spec (length c) 0); [lia|]. cbn.
        now rewrite app_nil_r.
      * intros [|fuel2] bp2 n2 w2 Hin2 Hw2 Hb2 Hf2; [lia|].
        rewrite encrypt_loop_short by (rewrite Hin2; lia).
        rewrite Hin2. cbn [encrypt_finish]. rewrite <- Htl.
        rewrite encrypt_tail_run by (world_simpl; assumption || lia).
        eexists. split; [reflexivity|].
        world_simpl. f_equal. unfold tl.
        rewrite (xor_block_swap (xor_block c lbp) (Spec.M key) lbp).
        rewrite (xor_block_cancel c lbp) by lia.
        apply xor_block_cancel. rewrite M_length by assumption. lia.
Qed.

End DecryptRuns.

(** A complete run of [decryptStream] on any input of at least one block,
    and of [encryptStream] on what it wrote. *)
Lemma decryptStream_run (key c0 rest : list byte) (w : World) :
  length key = 64 -> stdin w = c0 ++ rest -> length c0 = 8 ->
  wplan w = [] ->
  exists P w',
    decryptStream key w = Some (Z.of_nat (length rest), w') /\
    stdout w' = stdout w ++ P /\
    length P = length rest /\
    write_sizes (calls w')
    = write_sizes (calls w) ++ frame_sizes (length rest) /\
    forall (w2 : World) (more : list byte),
      stdin w2 = P -> urandom w2 = Some (decryptBlock c0 key ++ more) ->
      wplan w2 = [] ->
      exists w2',
        encryptStream key w2 = Some (Z.of_nat (length rest), w2') /\
        stdout w2' = stdout w2 ++ c0 ++ rest.
Proof.
  intros Hk Hin Hc Hw.
  rewrite (decryptStream_start key w c0 rest Hin Hc).
  match goal with
  | |- context [decrypt_loop ?fuel key ?lbp ?bp ?obp ?n ?w1] =>
      destruct (decrypt_run key Hk fuel rest lbp bp obp n w1)
        as (P & w' & Hrun & Hout & Hlen & Hcalls & Henc)
  end;
    try (world_simpl; reflexivity || assumption || lia).
  { rewrite Hin, length_app. lia. }
  exists P, w'. splits.
  - exact Hrun.
  - exact Hout.
  - exact Hlen.
  - rewrite Hcalls. world_simpl. rewrite write_sizes_app. cbn [write_sizes].
    now rewrite app_nil_r.
  - intros w2 more Hin2 Hr2 Hw2.
    assert (Hd : length (decryptBlock c0 key) = 8)
      by (apply decryptBlock_length; assumption).
    rewrite (encryptStream_start key w2 (decryptBlock c0 key) more)
      by assumption.
    rewrite encrypt_decrypt_block by assumption.
    match goal with
    | |- context [encrypt_loop ?fuel2 key _ ?bp2 ?n2 ?w3] =>
        destruct (Henc fuel2 bp2 n2 w3) as (w2' & Hrun2 & Hout2)
    end;
      try (world_simpl; reflexivity || assumption).
    + rewrite Hin2. lia.
    + exists w2'. split; [exact Hrun2|].
      rewrite Hout2. world_simpl. now rewrite app_assoc.
Qed.

(** X1. Every input of at least 8 bytes is a ciphertext: with complete
    writes [decryptStream] turns the input [c0 ++ rest] into some [P] of
    [length rest] bytes, and [encryptStream] on [P], when the entropy source
    supplies [decryptBlock c0 key], writes [c0 ++ rest] again. *)
Theorem decrypt_then_encrypt (key c0 rest : list byte) (w : World) :
  length key = 64 -> stdin w = c0 ++ rest -> length c0 = 8 ->
  wplan w = [] ->
  exists P w',
    decryptStream key w = Some (Z.of_nat (length rest), w') /\
    stdout w' = stdout w ++ P /\
    forall (w2 : World) (more : list byte),
      stdin w2 = P -> urandom w2 = Some (decryptBlock c0 key ++ more) ->
      wplan w2 = [] ->
      exists w2',
        encryptStream key w2 = Some (Z.of_nat (length rest), w2') /\
        stdout w2' = stdout w2 ++ c0 ++ rest.
Proof.
  intros Hk Hin Hc Hw.
  destruct (decryptStream_run key c0 rest w Hk Hin Hc Hw)
    as (P & w' & Hrun & Hout & _ & _ & Henc).
  exists P, w'. splits; assumption.
Qed.

Lemma decrypt_then_encrypt_witness :
  length key_phrase = 64 /\ length letters8 = 8 /\
  exists P w',
    decryptStream key_phrase (world_of (letters8 ++ digits10) None [])
    = Some (Z.of_nat (length digits10), w') /\
    stdout w' = [] ++ P /\
    forall (w2 : World) (more : list byte),
      stdin w2 = P ->
      urandom w2 = Some (decryptBlock letters8 key_phrase ++ more) ->
      wplan w2 = [] ->
      exists w2',
        encryptStream key_phrase w2 = Some (Z.of_nat (length digits10), w2')
        /\ stdout w2' = stdout w2 ++ letters8 ++ digits10.
Proof.
  split; [reflexivity|]. split; [reflexivity|].
  apply (decrypt_then_encrypt key_phrase letters8 digits10
           (world_of (letters8 ++ digits10) None []));
    reflexivity.
Defined.

(** X2. With complete writes, [decryptStream] on an input of [8 + len]
    bytes returns [len] and writes [len] bytes: one write of 8 bytes for
    each of the [len / 8] full blocks after the first, then one write of
    [len mod 8] bytes only if that is not zero; the first block costs a read
    and no write. *)
Theorem decrypt_length_framing (key c0 rest : list byte) (w : World) :
  length key = 64 -> stdin w = c0 ++ rest -> length c0 = 8 ->
  wplan w = [] ->
  let len := length rest in
  exists P w',
    decryptStream key w = Some (Z.of_nat len, w') /\
    stdout w' = stdout w ++ P /\
    length P = len /\
    length P + 8 = length (stdin w) /\
    write_sizes (calls w')
    = write_sizes (calls w)
      ++ repeat 8 (len / 8)
      ++ (if Nat.eqb (len mod 8) 0 then [] else [len mod 8]).
Proof.
  intros Hk Hin Hc Hw len.
  destruct (decryptStream_run key c0 rest w Hk Hin Hc Hw)
    as (P & w' & Hrun & Hout & Hlen & Hcalls & _).
  exists P, w'. splits; try assumption.
  rewrite Hin, length_app, Hlen. fold len. lia.
Qed.

Lemma decrypt_length_framing_witness :
  length key_phrase = 64 /\ length letters8 = 8 /\
  exists (P : list byte) (w' : World),
    decryptStream key_phrase (world_of (letters8 ++ digits10) None [])
    = Some (10%Z, w') /\
    length P = 10 /\
    write_sizes (calls w') = [8; 2].
Proof.
  split; [reflexivity|]. split; [reflexivity|].
  destruct (decrypt_length_framing key_phrase letters8 digits10
              (world_of (letters8 ++ digits10) None [])
              eq_refl eq_refl eq_refl eq_refl)
    as (P & w' & Hrun & _ & Hlen & _ & Hcalls).
  exists P, w'. split; [exact Hrun|]. split; [exact Hlen | exact Hcalls].
Defined.

(* ===================================================================== *)
(** ** Further properties: edges of the stream routines *)
(* ===================================================================== *)

(** X3. On an input of fewer than 8 bytes, the empty input included,
    [decryptStream] returns -1 whatever the key: the bytes are consumed by
    the one read, and nothing is written. *)
Theorem decrypt_short_input_fails (key : list byte) (w : World) :
  length (stdin w) < 8 ->
  exists w',
    decryptStream key w = Some ((-1)%Z, w') /\
    stdin w' = [] /\
    stdout w' = stdout w /\
    calls w' = calls w ++ [SysRead FdStdin 8].
Proof.
  intros H. unfold decryptStream. rewrite (sys_read_short _ H).
  destruct (Nat.eqb_spec (length (stdin w)) BLOCK_SIZE) as [E|E];
    [unfold BLOCK_SIZE in E; lia|].
  cbn [negb]. eexists. splits; [reflexivity | | |]; reflexivity.
Qed.

Lemma decrypt_short_input_fails_witness :
  length (stdin (world_of [x41; x42; x43] None [])) < 8 /\
  exists w',
    decryptStream key_phrase (world_of [x41; x42; x43] None [])
    = Some ((-1)%Z, w') /\
    stdin w' = [] /\
    stdout w' = [] /\
    calls w' = [] ++ [SysRead FdStdin 8].
Proof.
  assert (H : length (stdin (world_of [x41; x42; x43] None [])) < 8)
    by (simpl; lia).
  split; [exact H|].
  exact (decrypt_short_input_fails key_phrase
           (world_of [x41; x42; x43] None []) H).
Defined.

(** X4. On an empty input, with 8 bytes of entropy and complete writes,
    [encryptStream] returns 0 and writes the encrypted vector only, in one
    write of 8 bytes; and on any input of exactly 8 bytes [decryptStream]
    returns 0 without a write, whatever the write plan. *)
Theorem empty_input (key iv more : list byte) (w : World) :
  length key = 64 -> length iv = 8 -> urandom w = Some (iv ++ more) ->
  wplan w = [] -> stdin w = [] ->
  (exists w',
     encryptStream key w = Some (0%Z, w') /\
     stdout w' = stdout w ++ encryptBlock iv key /\
     write_sizes (calls w') = write_sizes (calls w) ++ [8]) /\
  forall (w2 : World) (c0 : list byte),
    stdin w2 = c0 -> length c0 = 8 ->
    exists w2',
      decryptStream key w2 = Some (0%Z, w2') /\
      stdout w2' = stdout w2 /\
      write_sizes (calls w2') = write_sizes (calls w2).
Proof.
  intros Hk Hiv Hr Hw Hin. split.
  - destruct (encryptStream_run key w iv more Hk Hr Hiv Hw)
      as (ct & w' & Hrun & Hout & Hlen & Hcalls & _).
    rewrite Hin in Hrun, Hlen, Hcalls. cbn [length] in Hrun, Hlen, Hcalls.
    destruct ct; [|discriminate Hlen].
    exists w'. splits.
    + exact Hrun.
    + rewrite Hout. now rewrite app_nil_r.
    + rewrite Hcalls. reflexivity.
  - intros w2 c0 Hin2 Hc0.
    rewrite (decryptStream_start key w2 c0 []) by (rewrite ?app_nil_r; assumption).
    rewrite decrypt_loop_short by (world_simpl; cbn; lia).
    world_simpl. cbn [decrypt_finish decrypt_tail length Nat.eqb negb].
    eexists. splits; [reflexivity | |]; world_simpl;
      rewrite ?write_sizes_app, ?app_nil_r; reflexivity.
Qed.

Lemma empty_input_witness :
  length key_phrase = 64 /\ length letters8 = 8 /\
  exists w',
    encryptStream key_phrase (world_of [] (Some (letters8 ++ [])) [])
    = Some (0%Z, w') /\
    stdout w' = [] ++ encryptBlock letters8 key_phrase /\
    write_sizes (calls w') = [] ++ [8].
Proof.
  split; [reflexivity|]. split; [reflexivity|].
  exact (proj1 (empty_input key_phrase letters8 []
                  (world_of [] (Some (letters8 ++ [])) [])
                  eq_refl eq_refl eq_refl eq_refl eq_refl)).
Defined.

(* ===================================================================== *)
(** ** Further properties: inside encryptStream *)
(* ===================================================================== *)

(** X5. In the block loop of [encryptStream], when a full 8-byte chunk [p]
    is read while the chain block is [lbp], the block handed to [write] is
    [ct = encryptBlock (p xor lbp)], which is [p xor lbp xor M key]; so [p],
    [ct] and [lbp] xored together give the key mask. If that write returns
    8 the loop goes on with [ct] as chain block, and otherwise the routine
    returns -1. *)
Theorem encrypt_block_step (fuel : nat) (key lbp bp : list byte) (n : Z)
  (w : World) (p rest : list byte) :
  stdin w = p ++ rest -> length p = 8 -> length key = 64 ->
  length lbp = 8 -> length bp = 8 ->
  let ct := encryptBlock (xor_block p lbp) key in
  ct = xor_block (xor_block p lbp) (Spec.M key) /\
  xor_block (xor_block p ct) lbp = Spec.M key /\
  encrypt_loop (S fuel) key lbp bp n w =
    let '(r, w') := sys_write ct BLOCK_SIZE (after_read rest w) in
    if negb (Z.eqb r (Z.of_nat BLOCK_SIZE)) then Returns (-1) w'
    else encrypt_loop fuel key ct lbp (n + Z.of_nat BLOCK_SIZE) w'.
Proof.
  intros Hin Hp Hk Hl Hb ct.
  assert (HM : length (Spec.M key) = 8) by (apply M_length; assumption).
  assert (Hx : length (xor_block p lbp) = 8)
    by (rewrite xor_block_length, Hp, Hl; reflexivity).
  assert (Hct : ct = xor_block (xor_block p lbp) (Spec.M key))
    by (apply encryptBlock_mask; assumption).
  splits.
  - exact Hct.
  - rewrite (xor_block_comm p ct), (xor_block_swap ct p lbp), Hct.
    rewrite (xor_block_swap (xor_block p lbp) (Spec.M key) lbp).
    rewrite (xor_block_cancel p lbp) by lia.
    rewrite (xor_block_comm p (Spec.M key)).
    apply xor_block_cancel. lia.
  - apply encrypt_loop_block; assumption.
Qed.

Lemma encrypt_block_step_witness :
  length letters8 = 8 /\ length key_phrase = 64 /\ length digits8 = 8 /\
  let w := world_of (letters8 ++ [x41; x42]) None [] in
  let ct := encryptBlock (xor_block letters8 digits8) key_phrase in
  ct = xor_block (xor_block letters8 digits8) (Spec.M key_phrase) /\
  xor_block (xor_block letters8 ct) digits8 = Spec.M key_phrase /\
  encrypt_loop 2 key_phrase digits8 letters8 0 w =
    let '(r, w') := sys_write ct BLOCK_SIZE (after_read [x41; x42] w) in
    if negb (Z.eqb r (Z.of_nat BLOCK_SIZE)) then Returns (-1) w'
    else encrypt_loop 1 key_phrase ct digits8 (0 + Z.of_nat BLOCK_SIZE) w'.
Proof.
  split; [reflexivity|]. split; [reflexivity|]. split; [reflexivity|].
  apply (encrypt_block_step 1 key_phrase digits8 letters8 0
           (world_of (letters8 ++ [x41; x42]) None []) letters8 [x41; x42]);
    reflexivity.
Defined.

(** X6. In [encryptStream], a final chunk [c] of 1 to 7 bytes is xored with
    the first [length c] bytes of the chain block, padded with zeros to 8
    bytes and run through [encryptBlock]; the first [length c] bytes of the
    result are handed to [write], and a write of fewer bytes makes the
    routine return -1. Under a 64-byte key those bytes are
    [c xor lbp xor M key], cut to [length c]. *)
Theorem encrypt_tail_is_transformed (fuel : nat) (key lbp bp : list byte)
  (n : Z) (w : World) :
  1 <= length (stdin w) < 8 -> length lbp = 8 -> length bp = 8 ->
  let c := stdin w in
  let out := encryptBlock (xor_block c lbp ++ repeat x00 (8 - length c)) key in
  encrypt_finish key (encrypt_loop (S fuel) key lbp bp n w) =
    Some (let '(r, w') :=
            sys_write out (length c)
              (eprint DebugWroteBytes (after_read [] w)) in
          if negb (Z.eqb r (Z.of_nat (length c))) then ((-1)%Z, w')
          else ((n + Z.of_nat (length c))%Z, eprint DebugWroteLastBlock w')) /\
  (length key = 64 ->
   firstn (length c) out = xor_block (xor_block c lbp) (Spec.M key)).
Proof.
  intros Hc Hl Hb c out. split.
  - rewrite encrypt_loop_short by lia. cbn [encrypt_finish]. fold c.
    now rewrite encrypt_tail_chunk by assumption.
  - intros Hk. unfold out.
    rewrite encryptBlock_mask
      by (try apply padded_length; assumption || (unfold c; lia)).
    apply firstn_masked_tail; assumption || (unfold c; lia).
Qed.

Lemma encrypt_tail_is_transformed_witness :
  let w := world_of [x41; x42] None [] in
  let c := stdin w in
  let out :=
    encryptBlock (xor_block c letters8 ++ repeat x00 (8 - length c))
      key_phrase in
  1 <= length (stdin w) < 8 /\ length letters8 = 8 /\
  length key_phrase = 64 /\
  encrypt_finish key_phrase (encrypt_loop 1 key_phrase letters8 letters8 0 w) =
    Some (let '(r, w') :=
            sys_write out (length c)
              (eprint DebugWroteBytes (after_read [] w)) in
          if negb (Z.eqb r (Z.of_nat (length c))) then ((-1)%Z, w')
          else ((0 + Z.of_nat (length c))%Z, eprint DebugWroteLastBlock w')) /\
  firstn (length c) out = xor_block (xor_block c letters8) (Spec.M key_phrase).
Proof.
  intros w c out.
  assert (Hc : 1 <= length (stdin w) < 8) by (simpl; lia).
  split; [exact Hc|]. split; [reflexivity|]. split; [reflexivity|].
  pose proof (encrypt_tail_is_transformed 0 key_phrase letters8 letters8 0 w
                Hc eq_refl eq_refl) as [Hany Hmask].
  split; [exact Hany | exact (Hmask eq_refl)].
Defined.

(** X7. A write of a full block that fails with -1 ends either routine at
    once with -1: the block has been read, nothing reaches standard output
    and the rest of the input stays unread. *)
Theorem write_error_aborts (fuel : nat) (key lbp bp obp : list byte) (n : Z)
  (w : World) (p rest : list byte) (plan : list (option nat)) :
  stdin w = p ++ rest -> length p = 8 -> length key = 64 ->
  length lbp = 8 -> length bp = 8 -> length obp = 8 ->
  wplan w = None :: plan ->
  exists w',
    encrypt_loop (S fuel) key lbp bp n w = Returns (-1) w' /\
    decrypt_loop (S fuel) key lbp bp obp n w = Returns (-1) w' /\
    stdout w' = stdout w /\ stdin w' = rest /\
    calls w' = calls w ++ [SysRead FdStdin 8; SysWrite FdStdout 8].
Proof.
  intros Hin Hp Hk Hl Hb Ho Hw.
  rewrite (encrypt_loop_block fuel key lbp bp n w p rest) by assumption.
  rewrite (decrypt_loop_block fuel key lbp bp obp n w p rest) by assumption.
  cbv zeta. unfold sys_write. world_simpl. rewrite Hw.
  change (Z.eqb (-1) (Z.of_nat BLOCK_SIZE)) with false.
  change (Z.eqb (-1) (-1)) with true. cbn [negb].
  eexists. splits; [reflexivity | reflexivity | | |]; world_simpl;
    rewrite <- ?app_assoc; reflexivity.
Qed.

Lemma write_error_aborts_witness :
  length letters8 = 8 /\ length key_phrase = 64 /\ length digits8 = 8 /\
  exists w',
    encrypt_loop 1 key_phrase digits8 digits8 0
      (world_of (letters8 ++ digits10) None [None])
    = Returns (-1) w' /\
    decrypt_loop 1 key_phrase digits8 digits8 digits8 0
      (world_of (letters8 ++ digits10) None [None])
    = Returns (-1) w' /\
    stdout w' = [] /\ stdin w' = digits10 /\
    calls w' = [] ++ [SysRead FdStdin 8; SysWrite FdStdout 8].
Proof.
  split; [reflexivity|]. split; [reflexivity|]. split; [reflexivity|].
  exact (write_error_aborts 0 key_phrase digits8 digits8 digits8 0
           (world_of (letters8 ++ digits10) None [None]) letters8 digits10 []
           eq_refl eq_refl eq_refl eq_refl eq_refl eq_refl eq_refl).
Defined.

(* ===================================================================== *)
(** ** Further properties: the key matters through its mask only *)
(* ===================================================================== *)

Section SameMask.

Variables key1 key2 : list byte.
Hypothesis Hk1 : length key1 = 64.
Hypothesis Hk2 : length key2 = 64.
Hypothesis HM : Spec.M key1 = Spec.M key2.

Lemma encryptBlock_same_mask (b : list byte) :
  length b = 8 -> encryptBlock b key1 = encryptBlock b key2.
Proof. intros Hb. now rewrite !encryptBlock_mask, HM by assumption. Qed.

Lemma decryptBlock_same_mask (b : list byte) :
  length b = 8 -> decryptBlock b key1 = decryptBlock b key2.
Proof. intros Hb. now rewrite !decryptBlock_mask, HM by assumption. Qed.

Lemma encrypt_tail_same_mask (lbp old c : list byte) (n : Z) (w : World) :
  length c < 8 -> length lbp = 8 -> length old = 8 ->
  encrypt_tail key1 (lbp, read_into c old, length c, n) w
  = encrypt_tail key2 (lbp, read_into c old, length c, n) w.
Proof.
  intros Hc Hl Ho. destruct c as [|x c'].
  - reflexivity.
  - rewrite !encrypt_tail_chunk by (assumption || (cbn in *; lia)).
    cbv zeta. rewrite encryptBlock_same_mask; [reflexivity|].
    apply padded_length; assumption.
Qed.

Lemma decrypt_tail_same_mask (lbp old obp c : list byte) (n : Z) (w : World) :
  length c < 8 -> length lbp = 8 -> length old = 8 ->
  decrypt_tail key1 (lbp, read_into c old, obp, length c, n) w
  = decrypt_tail key2 (lbp, read_into c old, obp, length c, n) w.
Proof.
  intros Hc Hl Ho. destruct c as [|x c'].
  - reflexivity.
  - rewrite !decrypt_tail_chunk by (assumption || (cbn in *; lia)).
    cbv zeta. rewrite decryptBlock_same_mask; [reflexivity|].
    apply padded_length; assumption.
Qed.

Lemma encrypt_loop_same_mask (fuel : nat) :
  forall (lbp bp : list byte) (n : Z) (w : World),
    length lbp = 8 -> length bp = 8 ->
    encrypt_finish key1 (encrypt_loop fuel key1 lbp bp n w)
    = encrypt_finish key2 (encrypt_loop fuel key2 lbp bp n w).
Proof.
  induction fuel as [|fuel IH]; intros lbp bp n w Hl Hb; [reflexivity|].
  destruct (le_lt_dec 8 (length (stdin w))) as [Hlong|Hshort].
  - pose (p := firstn 8 (stdin w)). pose (rest := skipn 8 (stdin w)).
    assert (Hin : stdin w = p ++ rest) by (symmetry; apply firstn_skipn).
    assert (Hp : length p = 8) by (unfold p; rewrite length_firstn; lia).
    assert (Hx : length (xor_block p lbp) = 8)
      by (rewrite xor_block_length, Hp, Hl; reflexivity).
    rewrite (encrypt_loop_block fuel key1 lbp bp n w p rest) by assumption.
    rewrite (encrypt_loop_block fuel key2 lbp bp n w p rest) by assumption.
    cbv zeta. rewrite (encryptBlock_same_mask _ Hx).
    destruct (sys_write _ _ _) as [r w1].
    destruct (negb _); [reflexivity|].
    apply IH; [apply encryptBlock_length|]; assumption.
  - rewrite !encrypt_loop_short by assumption. cbn [encrypt_finish].
    f_equal. apply encrypt_tail_same_mask; assumption.
Qed.

Lemma decrypt_loop_same_mask (fuel : nat) :
  forall (lbp bp obp : list byte) (n : Z) (w : World),
    length lbp = 8 -> length bp = 8 -> length obp = 8 ->
    decrypt_finish key1 (decrypt_loop fuel key1 lbp bp obp n w)
    = decrypt_finish key2 (decrypt_loop fuel key2 lbp bp obp n w).
Proof.
  induction fuel as [|fuel IH]; intros lbp bp obp n w Hl Hb Ho; [reflexivity|].
  destruct (le_lt_dec 8 (length (stdin w))) as [Hlong|Hshort].
  - pose (c := firstn 8 (stdin w)). pose (rest := skipn 8 (stdin w)).
    assert (Hin : stdin w = c ++ rest) by (symmetry; apply firstn_skipn).
    assert (Hc : length c = 8) by (unfold c; rewrite length_firstn; lia).
    rewrite (decrypt_loop_block fuel key1 lbp bp obp n w c rest)
      by assumption.
    rewrite (decrypt_loop_block fuel key2 lbp bp obp n w c rest)
      by assumption.
    cbv zeta. rewrite (decryptBlock_same_mask _ Hc).
    destruct (sys_write _ _ _) as [r w1].
    destruct (Z.eqb _ _); [reflexivity|].
    apply IH; try assumption.
    rewrite xor_block_length, decryptBlock_length, Hl by assumption.
    reflexivity.
  - rewrite !decrypt_loop_short by assumption. cbn [decrypt_finish].
    f_equal. apply decrypt_tail_same_mask; assumption.
Qed.

End SameMask.

(** X8. The stream routines use the key through its 8-byte mask only: two
    64-byte keys with the same mask make [encryptStream] behave identically
    in every world (whatever the input, the entropy source and the write
    plan), and likewise [decryptStream]; so a ciphertext is decrypted by
    any key that shares the mask of the one it was made with. *)
Theorem key_matters_through_mask (key1 key2 : list byte) (w : World) :
  length key1 = 64 -> length key2 = 64 -> Spec.M key1 = Spec.M key2 ->
  encryptStream key1 w = encryptStream key2 w /\
  decryptStream key1 w = decryptStream key2 w.
Proof.
  intros Hk1 Hk2 HM. split.
  - unfold encryptStream, sys_open_random, sys_read. world_simpl.
    destruct (urandom w) as [l|]; [|reflexivity]. cbn [negb].
    destruct (Nat.eqb_spec (length (firstn BLOCK_SIZE l)) BLOCK_SIZE)
      as [E|E]; [|reflexivity].
    cbn [negb].
    assert (Hb : length (block_at (buf_of w (2 * BLOCK_SIZE)) 0) = 8)
      by reflexivity.
    rewrite read_into_block by assumption.
    rewrite (encryptBlock_same_mask key1 key2 Hk1 Hk2 HM _ E).
    destruct (sys_write _ _ _) as [r w1].
    apply encrypt_loop_same_mask;
      first [assumption | reflexivity | apply encryptBlock_length; assumption].
  - unfold decryptStream, sys_read. world_simpl.
    destruct (Nat.eqb_spec (length (firstn BLOCK_SIZE (stdin w))) BLOCK_SIZE)
      as [E|E]; [|reflexivity].
    cbn [negb].
    apply decrypt_loop_same_mask; try assumption; try reflexivity.
    rewrite read_into_block; [assumption | assumption | reflexivity].
Qed.

Lemma key_matters_through_mask_witness :
  length key_phrase = 64 /\ length key_rotated = 64 /\
  Spec.M key_phrase = Spec.M key_rotated /\
  key_phrase <> key_rotated /\
  encryptStream key_phrase (world_of digits10 (Some letters8) [])
  = encryptStream key_rotated (world_of digits10 (Some letters8) []) /\
  decryptStream key_phrase (world_of digits10 (Some letters8) [])
  = decryptStream key_rotated (world_of digits10 (Some letters8) []).
Proof.
  split; [reflexivity|]. split; [reflexivity|]. split; [reflexivity|].
  split; [vm_compute; discriminate|].
  apply (key_matters_through_mask key_phrase key_rotated
           (world_of digits10 (Some letters8) []));
    reflexivity.
Defined.

(* ===================================================================== *)
(** ** Further properties: what holds under every write plan *)
(* ===================================================================== *)

(** Whatever the plan, a write appends at most [count] bytes to standard
    output and touches neither the input nor the entropy source nor the
    error stream. *)
Lemma sys_write_cases (p : list byte) (count : nat) (w : World) :
  exists r w1 written,
    sys_write p count w = (r, w1) /\
    stdout w1 = stdout w ++ written /\
    length written <= count /\
    stdin w1 = stdin w /\ urandom w1 = urandom w /\ stderr w1 = stderr w.
Proof.
  unfold sys_write. destruct (wplan w) as [|[m|] plan].
  - eexists _, _, (firstn count p). splits; try reflexivity.
    rewrite length_firstn. lia.
  - eexists _, _, (firstn (Nat.min m count) p). splits; try reflexivity.
    rewrite length_firstn. lia.
  - eexists _, _, []. splits; try reflexivity.
    + world_simpl. now rewrite app_nil_r.
    + cbn. lia.
Qed.

Section AnyPlan.

Variable key : list byte.
Hypothesis Hkey : length key = 64.

Lemma encrypt_any_plan (fuel : nat) :
  forall (lbp bp : list byte) (n : Z) (w : World),
    length lbp = 8 -> length bp = 8 -> length (stdin w) < fuel ->
    exists r w' out,
      encrypt_finish key (encrypt_loop fuel key lbp bp n w) = Some (r, w') /\
      (r = (-1)%Z \/
       (r = (n + Z.of_nat (length (stdin w)))%Z /\ stdin w' = [])) /\
      stdout w' = stdout w ++ out /\
      length out <= length (stdin w) /\
      urandom w' = urandom w.
Proof.
  induction fuel as [|fuel IH]; intros lbp bp n w Hl Hb Hf; [lia|].
  destruct (le_lt_dec 8 (length (stdin w))) as [Hlong|Hshort].
  - pose (p := firstn 8 (stdin w)). pose (rest := skipn 8 (stdin w)).
    assert (Hin : stdin w = p ++ rest) by (symmetry; apply firstn_skipn).
    assert (Hp : length p = 8) by (unfold p; rewrite length_firstn; lia).
    assert (Hlen : length (stdin w) = 8 + length rest)
      by (rewrite Hin at 1; rewrite length_app; lia).
    assert (Hx : length (xor_block p lbp) = 8)
      by (rewrite xor_block_length, Hp, Hl; reflexivity).
    rewrite (encrypt_loop_block fuel key lbp bp n w p rest) by assumption.
    cbv zeta.
    destruct (sys_write_cases (encryptBlock (xor_block p lbp) key) BLOCK_SIZE
                (after_read rest w))
      as (r & w1 & written & Ew & Hout & Hwl & Hin1 & Hr1 & _).
    rewrite Ew. unfold BLOCK_SIZE in Hwl.
    destruct (negb _).
    + exists (-1)%Z, w1, written. cbn [encrypt_finish].
      splits; auto. lia.
    + destruct (IH (encryptBlock (xor_block p lbp) key) lbp
                  (n + Z.of_nat BLOCK_SIZE)%Z w1)
        as (r' & w' & out & Hrun & Hret & Hout' & Hol & Hr');
        try assumption.
      { apply encryptBlock_length; assumption. }
      { rewrite Hin1. world_simpl. lia. }
      rewrite Hin1 in Hret, Hol. revert Hret Hol. world_simpl.
      intros Hret Hol.
      exists r', w', (written ++ out). splits.
      * exact Hrun.
      * destruct Hret as [Hret | [Hret He]]; [left; exact Hret | right].
        split; [|exact He]. rewrite Hret, Hlen. unfold BLOCK_SIZE. lia.
      * rewrite Hout', Hout. world_simpl. now rewrite app_assoc.
      * rewrite length_app. lia.
      * rewrite Hr', Hr1. reflexivity.
  - rewrite encrypt_loop_short by assumption. cbn [encrypt_finish].
    destruct (stdin w) as [|x c'] eqn:Ein.
    + eexists _, _, []. splits; [reflexivity | right | | |].
      * split; [cbn; lia | reflexivity].
      * world_simpl. now rewrite app_nil_r.
      * cbn. lia.
      * reflexivity.
    + set (c := x :: c') in *.
      assert (Hc : 1 <= length c < 8) by (unfold c in *; cbn in *; lia).
      rewrite encrypt_tail_chunk by assumption. cbv zeta.
      match goal with
      | |- context [sys_write ?b ?k ?w0] =>
          destruct (sys_write_cases b k w0)
            as (r & w1 & written & Ew & Hout & Hwl & Hin1 & Hr1 & _)
      end.
      rewrite Ew.
      destruct (negb _).
      * exists (-1)%Z, w1, written. splits; auto.
      * eexists _, _, written. splits; [reflexivity | right | | |].
        -- split; [reflexivity | world_simpl; exact Hin1].
        -- world_simpl. exact Hout.
        -- exact Hwl.
        -- world_simpl. exact Hr1.
Qed.

Lemma decrypt_any_plan (fuel : nat) :
  forall (lbp bp obp : list byte) (n : Z) (w : World),
    length lbp = 8 -> length bp = 8 -> length obp = 8 ->
    length (stdin w) < fuel ->
    exists r w' out,
      decrypt_finish key (decrypt_loop fuel key lbp bp obp n w)
      = Some (r, w') /\
      (r = (-1)%Z \/
       (r = (n + Z.of_nat (length (stdin w)))%Z /\ stdin w' = [])) /\
      stdout w' = stdout w ++ out /\
      length out <= length (stdin w) /\
      urandom w' = urandom w /\ stderr w' = stderr w.
Proof.
  induction fuel as [|fuel IH]; intros lbp bp obp n w Hl Hb Ho Hf; [lia|].
  destruct (le_lt_dec 8 (length (stdin w))) as [Hlong|Hshort].
  - pose (c := firstn 8 (stdin w)). pose (rest := skipn 8 (stdin w)).
    assert (Hin : stdin w = c ++ rest) by (symmetry; apply firstn_skipn).
    assert (Hc : length c = 8) by (unfold c; rewrite length_firstn; lia).
    assert (Hlen : length (stdin w) = 8 + length rest)
      by (rewrite Hin at 1; rewrite length_app; lia).
    rewrite (decrypt_loop_block fuel key lbp bp obp n w c rest)
      by assumption.
    cbv zeta.
    destruct (sys_write_cases (xor_block (decryptBlock c key) lbp) BLOCK_SIZE
                (after_read rest w))
      as (r & w1 & written & Ew & Hout & Hwl & Hin1 & Hr1 & He1).
    rewrite Ew. unfold BLOCK_SIZE in Hwl.
    destruct (Z.eqb_spec r (-1)) as [Er|Er].
    + exists (-1)%Z, w1, written. cbn [decrypt_finish].
      splits; auto. lia.
    + destruct (IH c lbp (xor_block (decryptBlock c key) lbp)
                  (n + Z.of_nat BLOCK_SIZE)%Z w1)
        as (r' & w' & out & Hrun & Hret & Hout' & Hol & Hr' & He');
        try assumption.
      { rewrite xor_block_length, decryptBlock_length, Hl by assumption.
        reflexivity. }
      { rewrite Hin1. world_simpl. lia. }
      rewrite Hin1 in Hret, Hol. revert Hret Hol. world_simpl.
      intros Hret Hol.
      exists r', w', (written ++ out). splits.
      * exact Hrun.
      * destruct Hret as [Hret | [Hret He]]; [left; exact Hret | right].
        split; [|exact He]. rewrite Hret, Hlen. unfold BLOCK_SIZE. lia.
      * rewrite Hout', Hout. world_simpl. now rewrite app_assoc.
      * rewrite length_app. lia.
      * rewrite Hr', Hr1. reflexivity.
      * rewrite He', He1. reflexivity.
  - rewrite decrypt_loop_short by assumption. cbn [decrypt_finish].
    destruct (stdin w) as [|x c'] eqn:Ein.
    + eexists _, _, []. splits; [reflexivity | right | | | |].
      * split; [cbn; lia | reflexivity].
      * world_simpl. now rewrite app_nil_r.
      * cbn. lia.
      * reflexivity.
      * reflexivity.
    + set (c := x :: c') in *.
      assert (Hc : 1 <= length c < 8) by (unfold c in *; cbn in *; lia).
      rewrite decrypt_tail_chunk by assumption. cbv zeta.
      match goal with
      | |- context [sys_write ?b ?k ?w0] =>
          destruct (sys_write_cases b k w0)
            as (r & w1 & written & Ew & Hout & Hwl & Hin1 & Hr1 & He1)
      end.
      rewrite Ew.
      destruct (negb _).
      * exists (-1)%Z, w1, written. splits; auto.
      * eexists _, _, written. splits; [reflexivity | right | | | |].
        -- split; [reflexivity | exact Hin1].
        -- exact Hout.
        -- exact Hwl.
        -- exact Hr1.
        -- exact He1.
Qed.

End AnyPlan.

(** X9. Whatever the input, the entropy source and the write plan,
    [encryptStream] under a 64-byte key returns either -1 or the length of
    the whole input, and in the second case it has read the input to its
    end; it only appends to standard output, and never more than 8 bytes
    beyond the length of the input. *)
Theorem encrypt_any_devices (key : list byte) (w : World) :
  length key = 64 ->
  exists r w' out,
    encryptStream key w = Some (r, w') /\
    (r = (-1)%Z \/ (r = Z.of_nat (length (stdin w)) /\ stdin w' = [])) /\
    stdout w' = stdout w ++ out /\
    length out <= length (stdin w) + 8.
Proof.
  intros Hk. unfold encryptStream, sys_open_random, sys_read. world_simpl.
  destruct (urandom w) as [l|]; cbn [negb].
  - destruct (Nat.eqb_spec (length (firstn BLOCK_SIZE l)) BLOCK_SIZE)
      as [E|E]; cbn [negb].
    + rewrite read_into_block by (assumption || reflexivity).
      match goal with
      | |- context [sys_write ?b ?k ?w0] =>
          destruct (sys_write_cases b k w0)
            as (r0 & w1 & written & Ew & Hout & Hwl & Hin1 & _ & _)
      end.
      rewrite Ew. unfold BLOCK_SIZE in Hwl.
      match goal with
      | |- context [encrypt_loop ?fuel key ?lbp ?bp ?n ?w2] =>
          destruct (encrypt_any_plan key Hk fuel lbp bp n w2)
            as (r & w' & out & Hrun & Hret & Hout' & Hol & _)
      end.
      { apply encryptBlock_length; assumption. }
      { reflexivity. }
      { world_simpl. rewrite Hin1. world_simpl. lia. }
      revert Hret Hout' Hol. world_simpl. rewrite Hin1, Hout. world_simpl.
      intros Hret Hout' Hol.
      exists r, w', (written ++ out). splits.
      * exact Hrun.
      * exact Hret.
      * rewrite Hout'. now rewrite app_assoc.
      * rewrite length_app. lia.
    + eexists _, _, []. splits; [reflexivity | left; reflexivity | |].
      * world_simpl. now rewrite app_nil_r.
      * cbn. lia.
  - eexists _, _, []. splits; [reflexivity | left; reflexivity | |].
    + world_simpl. now rewrite app_nil_r.
    + cbn. lia.
Qed.

Lemma encrypt_any_devices_witness :
  length key_phrase = 64 /\
  exists r w' out,
    encryptStream key_phrase
      (world_of letters24 (Some letters16) [Some 3; None])
    = Some (r, w') /\
    (r = (-1)%Z \/
     (r = Z.of_nat
            (length
               (stdin (world_of letters24 (Some letters16) [Some 3; None])))
      /\ stdin w' = [])) /\
    stdout w'
    = stdout (world_of letters24 (Some letters16) [Some 3; None]) ++ out /\
    length out
    <= length (stdin (world_of letters24 (Some letters16) [Some 3; None])) + 8.
Proof.
  split; [reflexivity|].
  exact (encrypt_any_devices key_phrase
           (world_of letters24 (Some letters16) [Some 3; None]) eq_refl).
Defined.

(** X10. Whatever the input and the write plan, [decryptStream] under a
    64-byte key returns either -1 or the length of the input less 8, and in
    the second case the input had at least 8 bytes and has been read to its
    end; it only appends to standard output, never more bytes than the
    input has beyond its first 8, and it touches neither the entropy source
    nor the error stream. *)
Theorem decrypt_any_devices (key : list byte) (w : World) :
  length key = 64 ->
  exists r w' out,
    decryptStream key w = Some (r, w') /\
    (r = (-1)%Z \/
     (8 <= length (stdin w) /\
      r = Z.of_nat (length (stdin w) - 8) /\ stdin w' = [])) /\
    stdout w' = stdout w ++ out /\
    length out <= length (stdin w) - 8 /\
    urandom w' = urandom w /\ stderr w' = stderr w.
Proof.
  intros Hk.
  destruct (le_lt_dec 8 (length (stdin w))) as [Hlong|Hshort].
  - pose (c0 := firstn 8 (stdin w)). pose (rest := skipn 8 (stdin w)).
    assert (Hin : stdin w = c0 ++ rest) by (symmetry; apply firstn_skipn).
    assert (Hc : length c0 = 8) by (unfold c0; rewrite length_firstn; lia).
    assert (Hlen : length (stdin w) = 8 + length rest)
      by (rewrite Hin at 1; rewrite length_app; lia).
    rewrite (decryptStream_start key w c0 rest Hin Hc).
    match goal with
    | |- context [decrypt_loop ?fuel key ?lbp ?bp ?obp ?n ?w1] =>
        destruct (decrypt_any_plan key Hk fuel lbp bp obp n w1)
          as (r & w' & out & Hrun & Hret & Hout & Hol & Hr & He)
    end;
      try reflexivity.
    { assumption. }
    { world_simpl. lia. }
    revert Hret Hout Hol Hr He. world_simpl. intros Hret Hout Hol Hr He.
    exists r, w', out. splits; try assumption.
    + destruct Hret as [Hret | [Hret Hnil]]; [left; exact Hret | right].
      splits; [lia | | exact Hnil].
      rewrite Hret, Hlen. f_equal. lia.
    + lia.
  - unfold decryptStream. rewrite (sys_read_short _ Hshort).
    destruct (Nat.eqb_spec (length (stdin w)) BLOCK_SIZE) as [E|E];
      [unfold BLOCK_SIZE in E; lia|].
    cbn [negb]. eexists _, _, [].
    splits; [reflexivity | left; reflexivity | | | |]; world_simpl.
    + now rewrite app_nil_r.
    + cbn. lia.
    + reflexivity.
    + reflexivity.
Qed.

Lemma decrypt_any_devices_witness :
  length key_phrase = 64 /\
  exists r w' out,
    decryptStream key_phrase (world_of letters24 (Some letters16) [Some 3])
    = Some (r, w') /\
    (r = (-1)%Z \/
     (8 <= length (stdin (world_of letters24 (Some letters16) [Some 3])) /\
      r = Z.of_nat
            (length (stdin (world_of letters24 (Some letters16) [Some 3]))
             - 8) /\
      stdin w' = [])) /\
    stdout w'
    = stdout (world_of letters24 (Some letters16) [Some 3]) ++ out /\
    length out
    <= length (stdin (world_of letters24 (Some letters16) [Some 3])) - 8 /\
    urandom w' = urandom (world_of letters24 (Some letters16) [Some 3]) /\
    stderr w' = stderr (world_of letters24 (Some letters16) [Some 3]).
Proof.
  split; [reflexivity|].
  exact (decrypt_any_devices key_phrase
           (world_of letters24 (Some letters16) [Some 3]) eq_refl).
Defined.

(* ===================================================================== *)
(** ** Further properties: main and its arguments *)
(* ===================================================================== *)

(** X11. The command line round trip. With a 64-byte key that does not
    begin with a dash, 8 bytes of entropy and complete writes,
    [main] called as [prog key] returns 0, writes a ciphertext and ends its
    report with the length of the input; and [main] called as
    [prog -d key] on that ciphertext returns 0, writes the input back and
    ends its report with the same length. *)
Theorem main_round_trip (prog key iv more : list byte) (w : World) :
  length key = 64 -> deref key <> x2d -> length iv = 8 ->
  urandom w = Some (iv ++ more) -> wplan w = [] ->
  exists ct w' msgs,
    main [prog; key] w = Some (0%Z, w') /\
    stdout w' = stdout w ++ ct /\
    stderr w' = msgs ++ [BytesProcessed (Z.of_nat (length (stdin w)))] /\
    forall w2 : World,
      stdin w2 = ct -> wplan w2 = [] ->
      exists w2' msgs2,
        main [prog; dash_d; key] w2 = Some (0%Z, w2') /\
        stdout w2' = stdout w2 ++ stdin w /\
        stderr w2'
        = msgs2 ++ [BytesProcessed (Z.of_nat (length (stdin w)))].
Proof.
  intros Hk Hd Hiv Hr Hw.
  destruct (parse_flags_key prog key Hd) as [Hp2 Hp3].
  destruct (encryptStream_run key (eprint (DebugFlags false key) w) iv more
              Hk Hr Hiv Hw)
    as (ct & w' & Hrun & Hout & _ & _ & Hdec).
  revert Hrun Hout Hdec. world_simpl. intros Hrun Hout Hdec.
  exists (encryptBlock iv key ++ ct),
    (eprint (BytesProcessed (Z.of_nat (length (stdin w)))) w'), (stderr w').
  splits.
  - rewrite (main_runs_stream [prog; key] w key false);
      [| simpl; lia | exact Hp2 | exact Hk].
    cbv iota. rewrite Hrun.
    destruct (Z.eqb_spec (Z.of_nat (length (stdin w))) (-1)) as [E|E];
      [lia | reflexivity].
  - world_simpl. exact Hout.
  - reflexivity.
  - intros w2 Hin2 Hw2.
    destruct (Hdec (eprint (DebugFlags true key) w2) Hin2 Hw2)
      as (w2' & Hrun2 & Hout2).
    revert Hout2. world_simpl. intros Hout2.
    exists (eprint (BytesProcessed (Z.of_nat (length (stdin w)))) w2'),
      (stderr w2').
    splits.
    + rewrite (main_runs_stream [prog; dash_d; key] w2 key true);
        [| simpl; lia | exact Hp3 | exact Hk].
      cbv iota. rewrite Hrun2.
      destruct (Z.eqb_spec (Z.of_nat (length (stdin w))) (-1)) as [E|E];
        [lia | reflexivity].
    + world_simpl. exact Hout2.
    + reflexivity.
Qed.

Lemma main_round_trip_witness :
  let prog := list_byte_of_string "cbc" in
  let w := world_of digits10 (Some (letters8 ++ [])) [] in
  length key_phrase = 64 /\ deref key_phrase <> x2d /\ length letters8 = 8 /\
  exists ct w' msgs,
    main [prog; key_phrase] w = Some (0%Z, w') /\
    stdout w' = stdout w ++ ct /\
    stderr w' = msgs ++ [BytesProcessed (Z.of_nat (length (stdin w)))] /\
    forall w2 : World,
      stdin w2 = ct -> wplan w2 = [] ->
      exists w2' msgs2,
        main [prog; dash_d; key_phrase] w2 = Some (0%Z, w2') /\
        stdout w2' = stdout w2 ++ stdin w /\
        stderr w2'
        = msgs2 ++ [BytesProcessed (Z.of_nat (length (stdin w)))].
Proof.
  intros prog w.
  assert (Hd : deref key_phrase <> x2d) by (vm_compute; discriminate).
  split; [reflexivity|]. split; [exact Hd|]. split; [reflexivity|].
  exact (main_round_trip prog key_phrase letters8 [] w
           eq_refl Hd eq_refl eq_refl eq_refl).
Defined.

(** X12. [main] returns 0 on every argument vector and in every world: a
    wrong argument count, a key of the wrong length and a failure of the
    stream routine are reported by message only. *)
Theorem main_returns_zero (argv : list cstring) (w : World) :
  exists w', main argv w = Some (0%Z, w').
Proof.
  unfold main.
  destruct ((length argv <? 2) || (3 <? length argv)); [eauto|].
  destruct (parse_flags (length argv) argv [] false) as [kp d].
  destruct (negb _); [eauto|].
  destruct d.
  - destruct (decryptStream_total kp (eprint (DebugFlags true kp) w))
      as (r & w' & ->).
    destruct (Z.eqb r (-1)); eauto.
  - destruct (encryptStream_total kp (eprint (DebugFlags false kp) w))
      as (r & w' & ->).
    destruct (Z.eqb r (-1)); eauto.
Qed.

(** The key string of a last argument that begins with a dash is what
    follows the dash; as the only argument, it selects decryption exactly
    when that remainder begins with the letter d. *)
Lemma parse_flags_dash (prog k : cstring) :
  parse_flags 2 [prog; x2d :: k] [] false = (k, Byte.eqb (deref k) x64) /\
  parse_flags 3 [prog; dash_d; x2d :: k] [] false = (k, true).
Proof.
  split.
  - cbn [parse_flags Nat.pred deref hd tl]. cbn [Byte.eqb].
    change (Byte.eqb x2d x2d) with true. cbv iota.
    now destruct (Byte.eqb (deref k) x64).
  - cbn [parse_flags Nat.pred deref hd tl dash_d].
    change (list_byte_of_string "-d") with [x2d; x64].
    cbn [parse_flags Nat.pred deref hd tl].
    change (Byte.eqb x2d x2d) with true. change (Byte.eqb x64 x64) with true.
    cbv iota. now destruct (Byte.eqb (deref k) x64).
Qed.

(** X13. A last argument that begins with a dash loses the dash before its
    length is checked: when what follows the dash is not 64 bytes long,
    [main] rejects the key without a system call, as the only argument and
    after "-d" alike. So no 64-byte key that begins with a dash is accepted,
    and neither is "-d" given with no key. *)
Theorem dash_argument_rejected (prog k : cstring) (w : World) :
  length k <> 64 ->
  main [prog; x2d :: k] w = Some (0%Z, eprint ErrorKeyLength w) /\
  main [prog; dash_d; x2d :: k] w = Some (0%Z, eprint ErrorKeyLength w) /\
  calls (eprint ErrorKeyLength w) = calls w.
Proof.
  intros H. destruct (parse_flags_dash prog k) as [H2 H3]. splits.
  - apply (main_rejects [prog; x2d :: k] w k (Byte.eqb (deref k) x64));
      [simpl; lia | exact H2 | exact H].
  - apply (main_rejects [prog; dash_d; x2d :: k] w k true);
      [simpl; lia | exact H3 | exact H].
  - reflexivity.
Qed.

Lemma dash_argument_rejected_witness :
  let prog := list_byte_of_string "cbc" in
  let k := firstn 63 key_phrase in
  let w := world_of digits10 (Some letters8) [] in
  length k <> 64 /\ length (x2d :: k) = 64 /\
  main [prog; x2d :: k] w = Some (0%Z, eprint ErrorKeyLength w) /\
  main [prog; dash_d; x2d :: k] w = Some (0%Z, eprint ErrorKeyLength w) /\
  calls (eprint ErrorKeyLength w) = calls w.
Proof.
  intros prog k w.
  assert (H : length k <> 64) by (vm_compute; lia).
  split; [exact H|]. split; [reflexivity|].
  exact (dash_argument_rejected prog k w H).
Defined.

(** [main] depends on its arguments, beyond their number being 2 or 3,
    through the key string and the direction only. *)
Lemma main_by_parse (argv1 argv2 : list cstring) (w : World) :
  2 <= length argv1 <= 3 -> 2 <= length argv2 <= 3 ->
  parse_flags (length argv1) argv1 [] false
  = parse_flags (length argv2) argv2 [] false ->
  main argv1 w = main argv2 w.
Proof.
  intros H1 H2 Hp. unfold main. rewrite Hp.
  destruct (Nat.ltb_spec (length argv1) 2); [lia|].
  destruct (Nat.ltb_spec 3 (length argv1)); [lia|].
  destruct (Nat.ltb_spec (length argv2) 2); [lia|].
  destruct (Nat.ltb_spec 3 (length argv2)); [lia|].
  reflexivity.
Qed.

(** X14. A dash glued in front of the key is dropped: for a key [k] that
    does not itself begin with a dash, [prog -d -k] runs as [prog -d k],
    and [prog -k] runs as [prog k] unless [k] begins with the letter d, in
    which case it runs as [prog -d k], a decryption. *)
Theorem dash_glued_to_key (prog k : cstring) (w : World) :
  deref k <> x2d ->
  main [prog; x2d :: k] w
  = main (if Byte.eqb (deref k) x64 then [prog; dash_d; k] else [prog; k]) w
  /\
  main [prog; dash_d; x2d :: k] w = main [prog; dash_d; k] w.
Proof.
  intros Hd.
  destruct (parse_flags_dash prog k) as [H2 H3].
  destruct (parse_flags_key prog k Hd) as [K2 K3].
  split.
  - destruct (Byte.eqb (deref k) x64) eqn:E;
      apply main_by_parse; try (simpl; lia).
    + cbn [length]. rewrite H2, K3. reflexivity.
    + cbn [length]. rewrite H2, K2. reflexivity.
  - apply main_by_parse; try (simpl; lia).
    cbn [length]. rewrite H3, K3. reflexivity.
Qed.

Lemma dash_glued_to_key_witness :
  let prog := list_byte_of_string "cbc" in
  let w := world_of digits10 (Some letters8) [] in
  deref digits8 <> x2d /\
  main [prog; x2d :: digits8] w
  = main (if Byte.eqb (deref digits8) x64
          then [prog; dash_d; digits8] else [prog; digits8]) w /\
  main [prog; dash_d; x2d :: digits8] w = main [prog; dash_d; digits8] w.
Proof.
  intros prog w.
  assert (Hd : deref digits8 <> x2d) by (vm_compute; discriminate).
  split; [exact Hd|].
  exact (dash_glued_to_key prog digits8 w Hd).
Defined.

(* ===================================================================== *)
(** ** Further properties: the write checks that are made *)
(* ===================================================================== *)

(** X15. In the block loop of [encryptStream], a write that takes only
    [m < 8] bytes of a block makes the routine return -1 at once: those [m]
    bytes of the ciphertext block are on standard output and the rest of
    the input stays unread. *)
Theorem encrypt_block_short_write (fuel : nat) (key lbp bp : list byte)
  (n : Z) (w : World) (p rest : list byte) (m : nat)
  (plan : list (option nat)) :
  stdin w = p ++ rest -> length p = 8 -> length lbp = 8 -> length bp = 8 ->
  wplan w = Some m :: plan -> m < 8 ->
  exists w',
    encrypt_loop (S fuel) key lbp bp n w = Returns (-1) w' /\
    stdout w' = stdout w ++ firstn m (encryptBlock (xor_block p lbp) key) /\
    stdin w' = rest /\
    wplan w' = plan.
Proof.
  intros Hin Hp Hl Hb Hw Hm.
  rewrite (encrypt_loop_block fuel key lbp bp n w p rest) by assumption.
  cbv zeta. unfold sys_write. world_simpl. rewrite Hw.
  rewrite Nat.min_l by (unfold BLOCK_SIZE; lia).
  destruct (Z.eqb_spec (Z.of_nat m) (Z.of_nat BLOCK_SIZE)) as [E|E].
  - unfold BLOCK_SIZE in E. lia.
  - cbn [negb]. eexists. splits; [reflexivity | | |]; reflexivity.
Qed.

Lemma encrypt_block_short_write_witness :
  length letters8 = 8 /\ length digits8 = 8 /\ 3 < 8 /\
  exists w',
    encrypt_loop 1 key_phrase digits8 digits8 0
      (world_of (letters8 ++ digits10) None [Some 3; None])
    = Returns (-1) w' /\
    stdout w'
    = [] ++ firstn 3 (encryptBlock (xor_block letters8 digits8) key_phrase) /\
    stdin w' = digits10 /\
    wplan w' = [None].
Proof.
  assert (Hm : 3 < 8) by lia.
  split; [reflexivity|]. split; [reflexivity|]. split; [exact Hm|].
  exact (encrypt_block_short_write 0 key_phrase digits8 digits8 0
           (world_of (letters8 ++ digits10) None [Some 3; None])
           letters8 digits10 3 [None]
           eq_refl eq_refl eq_refl eq_refl eq_refl Hm).
Defined.

Lemma tail_short_write_aborts_witness :
  1 <= length [x41; x42; x43] < 8 /\ length letters8 = 8 /\
  length digits8 = 8 /\ 2 < 3 /\
  fst (encrypt_tail key_phrase
         (letters8, read_into [x41; x42; x43] digits8,
          length [x41; x42; x43], 0%Z)
         (world_of [] None [Some 2])) = (-1)%Z /\
  fst (decrypt_tail key_phrase
         (letters8, read_into [x41; x42; x43] digits8, digits8,
          length [x41; x42; x43], 0%Z)
         (world_of [] None [Some 2])) = (-1)%Z.
Proof.
  assert (Hc : 1 <= length [x41; x42; x43] < 8) by (simpl; lia).
  assert (Hm : 2 < length [x41; x42; x43]) by (simpl; lia).
  split; [exact Hc|]. split; [reflexivity|]. split; [reflexivity|].
  split; [exact Hm|].
  exact (tail_short_write_aborts key_phrase letters8 digits8 digits8
           [x41; x42; x43] 0 (world_of [] None [Some 2]) 2 []
           Hc eq_refl eq_refl eq_refl Hm).
Defined.

(* ===================================================================== *)
(** ** Further properties: what main reports when a routine fails *)
(* ===================================================================== *)

(** X17. Asked to decrypt an input of fewer than 8 bytes, [main] writes
    nothing to standard output and reports the procedure failure after its
    debug line; it still returns 0. *)
Theorem main_decrypt_short_input (prog key : cstring) (w : World) :
  length key = 64 -> deref key <> x2d -> length (stdin w) < 8 ->
  exists w',
    main [prog; dash_d; key] w = Some (0%Z, w') /\
    stdout w' = stdout w /\
    stderr w' = stderr w ++ [DebugFlags true key; ErrorProcedureFailure].
Proof.
  intros Hk Hd Hs.
  destruct (parse_flags_key prog key Hd) as [_ Hp3].
  rewrite (main_runs_stream [prog; dash_d; key] w key true);
    [| simpl; lia | exact Hp3 | exact Hk].
  cbv iota. unfold decryptStream.
  rewrite sys_read_short by (world_simpl; exact Hs).
  world_simpl.
  destruct (Nat.eqb_spec (length (stdin w)) BLOCK_SIZE) as [E|E];
    [unfold BLOCK_SIZE in E; lia|].
  cbn [negb]. change (Z.eqb (-1) (-1)) with true. cbv iota.
  eexists. splits; [reflexivity | |]; world_simpl;
    rewrite <- ?app_assoc; reflexivity.
Qed.

Lemma main_decrypt_short_input_witness :
  let prog := list_byte_of_string "cbc" in
  let w := world_of [x41; x42; x43] None [] in
  length key_phrase = 64 /\ deref key_phrase <> x2d /\
  length (stdin w) < 8 /\
  exists w',
    main [prog; dash_d; key_phrase] w = Some (0%Z, w') /\
    stdout w' = stdout w /\
    stderr w'
    = stderr w ++ [DebugFlags true key_phrase; ErrorProcedureFailure].
Proof.
  intros prog w.
  assert (Hd : deref key_phrase <> x2d) by (vm_compute; discriminate).
  assert (Hs : length (stdin w) < 8) by (simpl; lia).
  split; [reflexivity|]. split; [exact Hd|]. split; [exact Hs|].
  exact (main_decrypt_short_input prog key_phrase w eq_refl Hd Hs).
Defined.

(** X18. Asked to encrypt when the entropy source cannot be opened, [main]
    reads nothing, writes nothing to standard output and reports the
    procedure failure after its debug lines; it still returns 0. *)
Theorem main_encrypt_no_entropy (prog key : cstring) (w : World) :
  length key = 64 -> deref key <> x2d -> urandom w = None ->
  exists w',
    main [prog; key] w = Some (0%Z, w') /\
    stdout w' = stdout w /\
    stdin w' = stdin w /\
    stderr w'
    = stderr w
      ++ [DebugFlags false key; DebugEncrypting; ErrorProcedureFailure].
Proof.
  intros Hk Hd Hr.
  destruct (parse_flags_key prog key Hd) as [Hp2 _].
  rewrite (main_runs_stream [prog; key] w key false);
    [| simpl; lia | exact Hp2 | exact Hk].
  cbv iota. unfold encryptStream, sys_open_random. world_simpl.
  rewrite Hr. cbn [negb]. change (Z.eqb (-1) (-1)) with true. cbv iota.
  eexists. splits; [reflexivity | | |]; world_simpl;
    rewrite <- ?app_assoc; reflexivity.
Qed.

Lemma main_encrypt_no_entropy_witness :
  let prog := list_byte_of_string "cbc" in
  let w := world_of digits10 None [] in
  length key_phrase = 64 /\ deref key_phrase <> x2d /\ urandom w = None /\
  exists w',
    main [prog; key_phrase] w = Some (0%Z, w') /\
    stdout w' = stdout w /\
    stdin w' = stdin w /\
    stderr w'
    = stderr w
      ++ [DebugFlags false key_phrase; DebugEncrypting;
          ErrorProcedureFailure].
Proof.
  intros prog w.
  assert (Hd : deref key_phrase <> x2d) by (vm_compute; discriminate).
  split; [reflexivity|]. split; [exact Hd|]. split; [reflexivity|].
  exact (main_encrypt_no_entropy prog key_phrase w eq_refl Hd eq_refl).
Defined.
